(** * Optimization scheduling of nuitka/transform/optimizations/Optimization.py

    A shallow embedding of [optimizeTree] (the tag driven scheduler of one
    module) and of [optimizeWhole] (the whole program driver), with the
    properties of the scheduling engine proved about them.

    Python objects that are mutated in place (the queue, the tag set, the
    trees, [TreeRecursion.imported_modules]) are threaded explicitly as state.
    Exceptions and loops that need not end are results of type [outcome].

    After it come the tools of nuitka/tools: of
    testing/compare_with_cpython/__main__.py the check for permission errors,
    the mode arguments of [main] and [getCPythonResults], and of
    release/pypi/__main__.py the release run, with what they do to the
    outside (processes, the clock, the cache, shell commands) as explicit
    state. *)

From Stdlib Require Import Ascii.
From stdpp Require Import gmap strings list.

Open Scope string_scope.
Open Scope list_scope.

(** ** Exceptions and outcomes *)

(** The exceptions that can leave the code: the [NameError] of a global name
    that the module never binds, the [KeyError] of popping an empty ordered
    set, and whatever a visitor raises while it executes. *)
Inductive exn : Type :=
| NameError (name : string)
| KeyError
| PassFailure (message : string).

(** A call either returns a value, raises, or is still running when the fuel
    of the model is used up.  Python does not roll state back when a call
    raises, so every case carries the state reached. *)
Inductive outcome (S A : Type) : Type :=
| Return (a : A) (s : S)
| Raise (e : exn) (s : S)
| Timeout (s : S).

Arguments Return {S A} a s.
Arguments Raise {S A} e s.
Arguments Timeout {S A} s.

Definition final_state {S A : Type} (r : outcome S A) : S :=
  match r with
  | Return _ s => s
  | Raise _ s => s
  | Timeout s => s
  end.

(** ** Tags.py: the tag set *)

Module Tags.

(** Modelled from the spec: the class [TagSet] of Tags.py, which is not among
    the sources.  Spec 3 and 4.1: a set of tag strings. *)
Abbreviation TagSet := (gset string).

(** Modelled from the spec: [TagSet()], a new tag set holds no tag. *)
Definition empty : TagSet := ∅.

(** Modelled from the spec: [TagSet.add]; spec 4.1, inserts a tag, idempotent. *)
Definition add (tags : TagSet) (tag : string) : TagSet := {[tag]} ∪ tags.

(** Modelled from the spec: [TagSet.clear]; spec 4.1, empties the set. *)
Definition clear (tags : TagSet) : TagSet := ∅.

(** Modelled from the spec: [TagSet.check]; spec 4.1, true iff every tag named
    in the predicate, a blank separated conjunction, is present. *)
Definition check (tags : TagSet) (predicate : string) : bool :=
  forallb (λ tag, bool_decide (tag ∈ tags)) (String.words predicate).

(** Modelled from the spec: [TagSet.onSignal], the callback handed to a
    visitor; spec 4.4 and 6, it adds the tag it is called with. *)
Definition onSignal (tags : TagSet) (signal : string) : TagSet :=
  add tags signal.

End Tags.

(** ** oset.py: the ordered set used as work queue *)

Module oset.

(** Modelled from the spec: the class [OrderedSet] of nuitka/oset.py, which is
    not among the sources.  Spec 3 and 4.2: an insertion ordered set, here the
    list of its elements, earliest first. *)
Abbreviation OrderedSet A := (list A).

Section OrderedSet.
Context {A : Type} `{EqDecision A}.
Implicit Types q : OrderedSet A.

(** Modelled from the spec: [OrderedSet()], a new ordered set is empty. *)
Definition empty : OrderedSet A := [].

(** Modelled from the spec: [OrderedSet.add]; spec 4.2, inserts at the back
    unless the element is present, and then does nothing. *)
Definition add q (x : A) : OrderedSet A :=
  if decide (x ∈ q) then q else q ++ [x].

(** Modelled from the spec: [OrderedSet.update]; spec 3 and 4.3, a group of
    passes is added one element after the other through [add]. *)
Definition update q (xs : list A) : OrderedSet A :=
  foldl add q xs.

(** Modelled from the spec: [OrderedSet.pop(last=False)]; spec 4.2, removes
    and returns the earliest element, and fails on an empty set. *)
Definition pop_first q : option (A * OrderedSet A) :=
  match q with
  | [] => None
  | x :: q' => Some (x, q')
  end.

(** Modelled from the spec: the truth value of the set, tested by
    [while optimizations_queue]; spec 4.2, [isEmpty] negated. *)
Definition nonempty q : bool :=
  match q with
  | [] => false
  | _ :: _ => true
  end.

End OrderedSet.

End oset.

(** ** What Optimization.py imports *)

(** The visitor classes bound by the import statements of the module, one
    field per imported name.  A pass is identified by its class;
    [VariableClosureLookupVisitors] is a group of passes.  The name
    [ValuePropagationVisitor], used once in the module, is bound by none of its
    imports and so is no field here. *)
Class Visitors (Pass : Type) : Type := {
  ModuleRecursionVisitor : Pass;
  OptimizeExecVisitor : Pass;
  VariableClosureLookupVisitors : list Pass;
  ModuleVariableUsageAnalysisVisitor : Pass;
  ModuleVariableReadOnlyVisitor : Pass;
  MaybeLocalVariableReductionVisitor : Pass;
  ReplaceBuiltinsCriticalVisitor : Pass;
  ReplaceBuiltinsOptionalVisitor : Pass;
  ReplaceBuiltinsExceptionsVisitor : Pass;
  PrecomputeBuiltinsVisitor : Pass;
  OptimizeOperationVisitor : Pass;
  OptimizeFunctionCallArgsVisitor : Pass;
  ReplaceUnpackingVisitor : Pass;
  StatementSequencesCleanupVisitor : Pass;
  OptimizeRaisesVisitor : Pass
}.

(** The configuration read from [nuitka.Options]; it is fixed for a run.
    [Options.isShowProgress] only switches progress lines on, which are not
    modelled. *)
Class Options : Type := {
  useValuePropagation : bool;
  shallMakeModule : bool;
  shallOptimizeStringExec : bool
}.

(** ** optimizeTree: the scheduler of one module *)

(** Ghost history of a scheduler run: [Refreshed] for every call of
    [refreshOptimizationsFromTags], [Applying p] for every pass handed to
    [execute] (the line the code writes to the debug log). *)
Inductive event (Pass : Type) : Type :=
| Refreshed
| Applying (p : Pass).

Arguments Refreshed {Pass}.
Arguments Applying {Pass} p.

(** The mutable state of one [optimizeTree] call: the program state that
    visitors act on, the two locals [optimizations_queue] and [tags], and the
    ghost history. *)
Record scheduler (Pass World : Type) : Type := Scheduler {
  sworld : World;
  optimizations_queue : oset.OrderedSet Pass;
  tags : Tags.TagSet;
  history : list (event Pass)
}.

Arguments Scheduler {Pass World} _ _ _ _.
Arguments sworld {Pass World} _.
Arguments optimizations_queue {Pass World} _.
Arguments tags {Pass World} _.
Arguments history {Pass World} _.

Section Scheduler.
Context {Pass Tree World : Type} `{EqDecision Pass}.
Context `{Visitors Pass} `{Options}.

(** [visitor().execute( tree, on_signal = ... )]: the visitor acts on the
    program state and returns the signals it emitted, in order, or raises. *)
Variable execute : Pass → Tree → World → outcome World (list string).

Definition use_propagation : bool := useValuePropagation.

(** Lines 84 to 135.  The queue and the tag set are updated in place by the
    code; here the updated pair is the state of the outcome.  The last
    conditional evaluates the unbound global [ValuePropagationVisitor], which
    raises before [tags.clear()] is reached. *)
Definition refreshOptimizationsFromTags
    (optimizations_queue : oset.OrderedSet Pass) (tags : Tags.TagSet)
    : outcome (oset.OrderedSet Pass * Tags.TagSet) unit :=
  let q := optimizations_queue in
  let q := if Tags.check tags "new_code new_variable"
           then oset.update q VariableClosureLookupVisitors else q in
  let q := if Tags.check tags "new_code new_import new_constant"
           then if negb shallMakeModule
                then oset.add q ModuleRecursionVisitor else q
           else q in
  let q := if negb use_propagation && Tags.check tags "new_code new_constant"
           then oset.add q OptimizeOperationVisitor else q in
  let q := if Tags.check tags "new_code new_constant"
           then oset.add q OptimizeFunctionCallArgsVisitor else q in
  let q := if Tags.check tags "new_code new_constant"
           then oset.add q ReplaceUnpackingVisitor else q in
  let q := if negb use_propagation
              && Tags.check tags "new_code new_statements new_constant"
           then oset.add q StatementSequencesCleanupVisitor else q in
  let q := if Tags.check tags "new_code new_variable"
           then oset.add q ModuleVariableUsageAnalysisVisitor else q in
  let q := if Tags.check tags "new_code read_only_mvar"
           then oset.add q ModuleVariableReadOnlyVisitor else q in
  let q := if negb use_propagation && Tags.check tags "new_code read_only_mvar"
           then oset.add q ReplaceBuiltinsCriticalVisitor else q in
  let q := if negb use_propagation && Tags.check tags "new_code read_only_mvar"
           then oset.add q ReplaceBuiltinsOptionalVisitor else q in
  let q := if Tags.check tags "new_code read_only_mvar"
           then oset.add q ReplaceBuiltinsExceptionsVisitor else q in
  let q := if negb use_propagation && Tags.check tags "new_builtin new_constant"
           then oset.add q PrecomputeBuiltinsVisitor else q in
  let q := if Tags.check tags "var_usage new_builtin"
           then oset.add q MaybeLocalVariableReductionVisitor else q in
  let q := if Tags.check tags "new_code new_constant"
           then if shallOptimizeStringExec
                then oset.add q OptimizeExecVisitor else q
           else q in
  let q := if Tags.check tags "new_code new_raise"
           then oset.add q OptimizeRaisesVisitor else q in
  if use_propagation
     && Tags.check tags "new_code new_statements new_constant new_builtin"
  then Raise (NameError "ValuePropagationVisitor") (q, tags)
  else Return tt (q, Tags.clear tags).

(** A call [refreshOptimizationsFromTags( optimizations_queue, tags )] on the
    locals of [optimizeTree], recorded in the history. *)
Definition refresh (st : scheduler Pass World) : outcome (scheduler Pass World) unit :=
  let h := history st ++ [Refreshed] in
  match refreshOptimizationsFromTags (optimizations_queue st) (tags st) with
  | Return _ (q, t) => Return tt (Scheduler (sworld st) q t h)
  | Raise e (q, t) => Raise e (Scheduler (sworld st) q t h)
  | Timeout (q, t) => Timeout (Scheduler (sworld st) q t h)
  end.

(** The state in which the scheduler stands once the popped pass has
    returned: the pass is off the queue, the program state is the one the pass
    left, and every signal it emitted went through [tags.onSignal]. *)
Definition executed (st : scheduler Pass World) (next_optimization : Pass)
    (queue : oset.OrderedSet Pass) (signals : list string) (w : World)
    : scheduler Pass World :=
  Scheduler w queue (foldl Tags.onSignal (tags st) signals)
            (history st ++ [Applying next_optimization]).

(** Lines 140 to 147, the body of the while loop.  When the visitor raises,
    the exception leaves the function; nothing catches it.  The signals a
    failing visitor emitted before it raised are not kept: the tag set is a
    local that is dropped with the call. *)
Definition applyNext (tree : Tree) (st : scheduler Pass World)
    : outcome (scheduler Pass World) unit :=
  match oset.pop_first (optimizations_queue st) with
  | None => Raise KeyError st
  | Some (next_optimization, queue) =>
    let applying := history st ++ [Applying next_optimization] in
    match execute next_optimization tree (sworld st) with
    | Return signals w =>
      let st := executed st next_optimization queue signals w in
      if negb (oset.nonempty (optimizations_queue st))
         || Tags.check (tags st) "new_code"
      then refresh st
      else Return tt st
    | Raise e w => Raise e (Scheduler w queue (tags st) applying)
    | Timeout w => Timeout (Scheduler w queue (tags st) applying)
    end
  end.

(** Lines 139 to 147, [while optimizations_queue: ...].  The fuel bounds the
    number of iterations; [Timeout] stands for a loop still running. *)
Fixpoint optimizationLoop (fuel : nat) (tree : Tree) (st : scheduler Pass World)
    : outcome (scheduler Pass World) unit :=
  if oset.nonempty (optimizations_queue st) then
    match fuel with
    | 0 => Timeout st
    | S fuel =>
      match applyNext tree st with
      | Return _ st => optimizationLoop fuel tree st
      | Raise e st => Raise e st
      | Timeout st => Timeout st
      end
    end
  else Return tt st.

(** Lines 73 to 149, with the scheduler state kept in the outcome. *)
Definition optimizeTree_run (fuel : nat) (tree : Tree) (w : World)
    : outcome (scheduler Pass World) Tree :=
  let optimizations_queue := oset.empty in
  let tags := Tags.empty in
  let tags := Tags.add tags "new_code" in
  match refresh (Scheduler w optimizations_queue tags []) with
  | Return _ st =>
    match optimizationLoop fuel tree st with
    | Return _ st => Return tree st
    | Raise e st => Raise e st
    | Timeout st => Timeout st
    end
  | Raise e st => Raise e st
  | Timeout st => Timeout st
  end.

(** [optimizeTree( tree )] as its caller sees it: the tree handed in is
    returned, and of the state only the program state remains, the queue and
    the tags being locals. *)
Definition optimizeTree (fuel : nat) (tree : Tree) (w : World)
    : outcome World Tree :=
  match optimizeTree_run fuel tree w with
  | Return t st => Return t (sworld st)
  | Raise e st => Raise e (sworld st)
  | Timeout st => Timeout (sworld st)
  end.

End Scheduler.

(** ** The eligibility table *)

(** What a rule nominates: a pass or a group of passes, or a name that is
    bound to no pass. *)
Inductive nominee (Pass : Type) : Type :=
| Passes (ps : list Pass)
| Unbound (name : string).

Arguments Passes {Pass} ps.
Arguments Unbound {Pass} name.

(** A rule: the conjunction of tags it requires, its configuration predicate
    as evaluated for the run, and what it nominates. *)
Record rule (Pass : Type) : Type := Rule {
  required : string;
  enabled : bool;
  target : nominee Pass
}.

Arguments Rule {Pass} _ _ _.
Arguments required {Pass} _.
Arguments enabled {Pass} _.
Arguments target {Pass} _.

Section EligibilityTable.
Context {Pass : Type} `{EqDecision Pass}.

Definition fires (tags : Tags.TagSet) (r : rule Pass) : bool :=
  enabled r && Tags.check tags (required r).

(** Modelled from the spec: the rule evaluation of spec 3 and 4.3 over an
    arbitrary table, where the source has a fixed chain of conditionals, which
    is the instance [EligibilityTable] below.  Rules are taken top to bottom
    against the same tag set; every rule that fires adds its passes through
    the queue's [add]; a firing rule whose target is unbound raises. *)
Fixpoint evaluate (rules : list (rule Pass)) (tags : Tags.TagSet)
    (q : oset.OrderedSet Pass) : outcome (oset.OrderedSet Pass) unit :=
  match rules with
  | [] => Return tt q
  | r :: rules =>
    match target r with
    | Passes ps => evaluate rules tags (if fires tags r then oset.update q ps else q)
    | Unbound name =>
      if fires tags r then Raise (NameError name) q else evaluate rules tags q
    end
  end.

(** Modelled from the spec: refresh over an arbitrary table, spec 4.3: all
    rules are evaluated, then the tag set is cleared. *)
Definition refreshFromTable (rules : list (rule Pass))
    (q : oset.OrderedSet Pass) (tags : Tags.TagSet)
    : outcome (oset.OrderedSet Pass * Tags.TagSet) unit :=
  match evaluate rules tags q with
  | Return _ q => Return tt (q, Tags.clear tags)
  | Raise e q => Raise e (q, tags)
  | Timeout q => Timeout (q, tags)
  end.

(** The passes nominated by the rules that fire, in rule order, up to the
    first firing rule whose target is unbound. *)
Fixpoint nominated (rules : list (rule Pass)) (tags : Tags.TagSet) : list Pass :=
  match rules with
  | [] => []
  | r :: rules =>
    match target r with
    | Passes ps => (if fires tags r then ps else []) ++ nominated rules tags
    | Unbound _ => if fires tags r then [] else nominated rules tags
    end
  end.

(** The unbound name on which evaluation stops, if any. *)
Fixpoint unbound_hit (rules : list (rule Pass)) (tags : Tags.TagSet)
    : option string :=
  match rules with
  | [] => None
  | r :: rules =>
    match target r with
    | Passes _ => unbound_hit rules tags
    | Unbound name => if fires tags r then Some name else unbound_hit rules tags
    end
  end.

(** The elements of [xs] that [add] really inserts into [q], in the order in
    which they are inserted. *)
Fixpoint inserted (q : oset.OrderedSet Pass) (xs : list Pass) : list Pass :=
  match xs with
  | [] => []
  | x :: xs =>
    if decide (x ∈ q) then inserted q xs else x :: inserted (q ++ [x]) xs
  end.

Context `{Visitors Pass} `{Options}.

(** The conditionals of [refreshOptimizationsFromTags], lines 85 to 133, as
    rules, in source order. *)
Definition EligibilityTable : list (rule Pass) := [
  Rule "new_code new_variable" true (Passes VariableClosureLookupVisitors);
  Rule "new_code new_import new_constant" (negb shallMakeModule)
       (Passes [ModuleRecursionVisitor]);
  Rule "new_code new_constant" (negb use_propagation)
       (Passes [OptimizeOperationVisitor]);
  Rule "new_code new_constant" true (Passes [OptimizeFunctionCallArgsVisitor]);
  Rule "new_code new_constant" true (Passes [ReplaceUnpackingVisitor]);
  Rule "new_code new_statements new_constant" (negb use_propagation)
       (Passes [StatementSequencesCleanupVisitor]);
  Rule "new_code new_variable" true (Passes [ModuleVariableUsageAnalysisVisitor]);
  Rule "new_code read_only_mvar" true (Passes [ModuleVariableReadOnlyVisitor]);
  Rule "new_code read_only_mvar" (negb use_propagation)
       (Passes [ReplaceBuiltinsCriticalVisitor]);
  Rule "new_code read_only_mvar" (negb use_propagation)
       (Passes [ReplaceBuiltinsOptionalVisitor]);
  Rule "new_code read_only_mvar" true (Passes [ReplaceBuiltinsExceptionsVisitor]);
  Rule "new_builtin new_constant" (negb use_propagation)
       (Passes [PrecomputeBuiltinsVisitor]);
  Rule "var_usage new_builtin" true (Passes [MaybeLocalVariableReductionVisitor]);
  Rule "new_code new_constant" shallOptimizeStringExec
       (Passes [OptimizeExecVisitor]);
  Rule "new_code new_raise" true (Passes [OptimizeRaisesVisitor]);
  Rule "new_code new_statements new_constant new_builtin" use_propagation
       (Unbound "ValuePropagationVisitor")
].

End EligibilityTable.

(** ** optimizeWhole: the whole program driver *)

(** Ghost trace of a driver run: [Optimizing m] for every call
    [optimizeTree( m )], [SweepBegins] for every iteration of the while loop,
    that is for every evaluation of [getOtherModules()] in the for
    statement. *)
Inductive step (Tree : Type) : Type :=
| SweepBegins
| Optimizing (m : Tree).

Arguments SweepBegins {Tree}.
Arguments Optimizing {Tree} m.

(** The state of one [optimizeWhole] call: the program state, which holds the
    trees and [TreeRecursion.imported_modules], the local [done_modules], and
    the ghost trace. *)
Record driver (Tree World : Type) `{Countable Tree} : Type := Driver {
  dworld : World;
  done_modules : gset Tree;
  trace : list (step Tree)
}.

Arguments Driver {Tree World _ _} _ _ _.
Arguments dworld {Tree World _ _} _.
Arguments done_modules {Tree World _ _} _.
Arguments trace {Tree World _ _} _.

Section Driver.
Context {Tree World : Type} `{Countable Tree}.

(** Lines 151 and 152: the values of [TreeRecursion.imported_modules], copied
    into a new list at every call. *)
Variable getOtherModules : World → list Tree.

(** The driver uses the scheduler through its call only; it is a variable
    here, so that what is proved of the driver holds whatever a scheduler run
    does to the program state, the registry included. *)
Variable optimizeTree : Tree → World → outcome World Tree.

(** [optimizeTree( module )] followed by [done_modules.add( module )], lines
    157 to 158 and 170 to 172. *)
Definition process (module : Tree) (d : driver Tree World)
    : outcome (driver Tree World) Tree :=
  let t := trace d ++ [Optimizing module] in
  match optimizeTree module (dworld d) with
  | Return result w => Return result (Driver w ({[module]} ∪ done_modules d) t)
  | Raise e w => Raise e (Driver w (done_modules d) t)
  | Timeout w => Timeout (Driver w (done_modules d) t)
  end.

(** Lines 168 to 177, the for loop over the list that [getOtherModules()]
    returned when the loop started; [finished] is the local flag. *)
Fixpoint sweep (others : list Tree) (finished : bool) (d : driver Tree World)
    : outcome (driver Tree World) bool :=
  match others with
  | [] => Return finished d
  | other_module :: others =>
    if decide (other_module ∈ done_modules d) then sweep others finished d
    else
      match process other_module d with
      | Return _ d => sweep others false d
      | Raise e d => Raise e d
      | Timeout d => Timeout d
      end
  end.

(** Lines 163 to 177, [while not finished: ...], entered with [finished]
    false.  The fuel bounds the number of iterations. *)
Fixpoint sweeps (fuel : nat) (d : driver Tree World)
    : outcome (driver Tree World) unit :=
  match fuel with
  | 0 => Timeout d
  | S fuel =>
    let d := Driver (dworld d) (done_modules d) (trace d ++ [SweepBegins]) in
    match sweep (getOtherModules (dworld d)) true d with
    | Return finished d => if finished then Return tt d else sweeps fuel d
    | Raise e d => Raise e d
    | Timeout d => Timeout d
    end
  end.

(** Lines 154 to 179. *)
Definition optimizeWhole (fuel : nat) (main_module : Tree) (w : World)
    : outcome (driver Tree World) Tree :=
  match process main_module (Driver w ∅ []) with
  | Return result d =>
    match sweeps fuel d with
    | Return _ d => Return result d
    | Raise e d => Raise e d
    | Timeout d => Timeout d
    end
  | Raise e d => Raise e d
  | Timeout d => Timeout d
  end.

(** The modules for which [optimizeTree] was called, in call order. *)
Fixpoint optimized (t : list (step Tree)) : list Tree :=
  match t with
  | [] => []
  | SweepBegins :: t => optimized t
  | Optimizing m :: t => m :: optimized t
  end.

(** The trace of a sweep in which the modules [ms] were optimized. *)
Definition sweep_trace (ms : list Tree) : list (step Tree) :=
  SweepBegins :: (Optimizing <$> ms).

(** The bookkeeping of the driver agrees with what it did: no module was
    handed to [optimizeTree] twice, and [done_modules] holds exactly the
    modules that were handed to it. *)
Definition accounted (d : driver Tree World) : Prop :=
  NoDup (optimized (trace d)) ∧
  done_modules d = list_to_set (optimized (trace d)).

(** The program states that calls of [optimizeTree] can lead to. *)
Definition reachable : World → World → Prop :=
  rtc (λ w w', ∃ m t, optimizeTree m w = Return t w').

End Driver.

(** The driver run on the scheduler of this module. *)
Definition optimizeWholeProgram {Pass Tree World : Type} `{EqDecision Pass}
    `{Countable Tree} `{Visitors Pass} `{Options}
    (execute : Pass → Tree → World → outcome World (list string))
    (getOtherModules : World → list Tree) (fuel_tree fuel : nat)
    : Tree → World → outcome (driver Tree World) Tree :=
  optimizeWhole getOtherModules (optimizeTree execute fuel_tree) fuel.

(** ** Concrete instances, on which the properties are run *)

(** Passes named by their class; two stand-ins make up the group
    [VariableClosureLookupVisitors], whose members the module does not name. *)
Definition named_visitors : Visitors string := {|
  ModuleRecursionVisitor := "ModuleRecursionVisitor";
  OptimizeExecVisitor := "OptimizeExecVisitor";
  VariableClosureLookupVisitors :=
    ["VariableClosureLookupVisitorPhase1"; "VariableClosureLookupVisitorPhase2"];
  ModuleVariableUsageAnalysisVisitor := "ModuleVariableUsageAnalysisVisitor";
  ModuleVariableReadOnlyVisitor := "ModuleVariableReadOnlyVisitor";
  MaybeLocalVariableReductionVisitor := "MaybeLocalVariableReductionVisitor";
  ReplaceBuiltinsCriticalVisitor := "ReplaceBuiltinsCriticalVisitor";
  ReplaceBuiltinsOptionalVisitor := "ReplaceBuiltinsOptionalVisitor";
  ReplaceBuiltinsExceptionsVisitor := "ReplaceBuiltinsExceptionsVisitor";
  PrecomputeBuiltinsVisitor := "PrecomputeBuiltinsVisitor";
  OptimizeOperationVisitor := "OptimizeOperationVisitor";
  OptimizeFunctionCallArgsVisitor := "OptimizeFunctionCallArgsVisitor";
  ReplaceUnpackingVisitor := "ReplaceUnpackingVisitor";
  StatementSequencesCleanupVisitor := "StatementSequencesCleanupVisitor";
  OptimizeRaisesVisitor := "OptimizeRaisesVisitor"
|}.

Definition default_options : Options := {|
  useValuePropagation := false;
  shallMakeModule := false;
  shallOptimizeStringExec := false
|}.

Definition propagation_options : Options := {|
  useValuePropagation := true;
  shallMakeModule := false;
  shallOptimizeStringExec := false
|}.

(** Visitors over a program state that is the registry itself, modules being
    numbers: [ReplaceUnpackingVisitor] signals new code and a new constant,
    [ModuleRecursionVisitor] registers the module that follows the tree in
    number, [OptimizeRaisesVisitor] fails, every other pass is silent. *)
Definition demo_execute (p : string) (tree : nat) (w : list nat)
    : outcome (list nat) (list string) :=
  if decide (p = "ReplaceUnpackingVisitor")
  then Return ["new_code"; "new_constant"] w
  else if decide (p = "ModuleRecursionVisitor")
  then Return ["new_import"] (w ++ [S tree])
  else if decide (p = "OptimizeRaisesVisitor")
  then Raise (PassFailure "raise without effect") w
  else Return [] w.

(** A scheduler that registers modules: optimizing module 0 registers module
    1, optimizing module 1 registers module 2, optimizing module 3 fails. *)
Definition demo_optimizeTree (m : nat) (w : list nat) : outcome (list nat) nat :=
  match m with
  | 0 => Return m [1]
  | 1 => Return m [1; 2]
  | 3 => Raise (PassFailure "raise without effect") w
  | _ => Return m w
  end.

Definition demo_getOtherModules (w : list nat) : list nat := w.

(** * compare_with_cpython/__main__.py *)

(** Byte strings are lists of bytes; [b "..."] is Python's [b"..."]. *)
Definition b (s : string) : list ascii := String.list_ascii_of_string s.

(** [needle in hay] on byte strings, through [hay.startswith] at every
    position. *)
Fixpoint starts_with (needle hay : list ascii) : bool :=
  match needle, hay with
  | [], _ => true
  | c :: needle, c' :: hay => Ascii.eqb c c' && starts_with needle hay
  | _ :: _, [] => false
  end.

Fixpoint contains (needle hay : list ascii) : bool :=
  starts_with needle hay ||
  match hay with
  | [] => false
  | _ :: hay => contains needle hay
  end.

(** The regular expressions that the tool uses: literal bytes, alternation,
    concatenation, [.] (any byte but a newline) and [*]. *)
Inductive regex : Type :=
| Never
| Empty
| Byte (c : ascii)
| Dot
| Cat (r1 r2 : regex)
| Or (r1 r2 : regex)
| Many (r : regex).

Definition newline : ascii := "010"%char.

Fixpoint nullable (r : regex) : bool :=
  match r with
  | Never => false
  | Empty => true
  | Byte _ => false
  | Dot => false
  | Cat r1 r2 => nullable r1 && nullable r2
  | Or r1 r2 => nullable r1 || nullable r2
  | Many _ => true
  end.

Fixpoint derive (c : ascii) (r : regex) : regex :=
  match r with
  | Never => Never
  | Empty => Never
  | Byte c' => if Ascii.eqb c c' then Empty else Never
  | Dot => if Ascii.eqb c newline then Never else Empty
  | Cat r1 r2 =>
    if nullable r1 then Or (Cat (derive c r1) r2) (derive c r2)
    else Cat (derive c r1) r2
  | Or r1 r2 => Or (derive c r1) (derive c r2)
  | Many r => Cat (derive c r) (Many r)
  end.

(** Some prefix of [s] matches [r]. *)
Fixpoint match_here (r : regex) (s : list ascii) : bool :=
  nullable r ||
  match s with
  | [] => false
  | c :: s => match_here (derive c r) s
  end.

(** [re.search(r, s)] finds a match: at some position of [s] a match of [r]
    begins. *)
Fixpoint search (r : regex) (s : list ascii) : bool :=
  match_here r s ||
  match s with
  | [] => false
  | _ :: s => search r s
  end.

Fixpoint literal (s : list ascii) : regex :=
  match s with
  | [] => Empty
  | c :: s => Cat (Byte c) (literal s)
  end.

Fixpoint one_of (alternatives : list (list ascii)) : regex :=
  match alternatives with
  | [] => Never
  | s :: alternatives => Or (literal s) (one_of alternatives)
  end.

(** What a regular expression matches. *)
Inductive matches : regex → list ascii → Prop :=
| matches_empty : matches Empty []
| matches_byte c : matches (Byte c) [c]
| matches_dot c : c ≠ newline → matches Dot [c]
| matches_cat r1 r2 s1 s2 :
    matches r1 s1 → matches r2 s2 → matches (Cat r1 r2) (s1 ++ s2)
| matches_or_l r1 r2 s : matches r1 s → matches (Or r1 r2) s
| matches_or_r r1 r2 s : matches r2 s → matches (Or r1 r2) s
| matches_many_nil r : matches (Many r) []
| matches_many_more r s1 s2 :
    matches r s1 → matches (Many r) s2 → matches (Many r) (s1 ++ s2).

(** Lines 56 to 58, the forms of permission errors. *)
Definition permission_errors : list (list ascii) :=
  [b "Permission denied:"; b "PermissionError:"; b "DBPermissionsError:"].

Definition error_kinds : list (list ascii) :=
  [b "WindowsError"; b "FileNotFoundError"; b "FileExistsError"; b "WinError 145"].

Definition error_places : list (list ascii) :=
  [b "@test"; b "totest"; b "xx"; b "Error 145"].

(** Lines 63 and 64, the pattern
    [(WindowsError|FileNotFoundError|FileExistsError|WinError 145):.*(@test|totest|xx|Error 145)]. *)
Definition localized_error : regex :=
  Cat (one_of error_kinds)
      (Cat (Byte ":"%char) (Cat (Many Dot) (one_of error_places))).

(** Lines 54 to 71. *)
Definition checkNoPermissionError (output : list ascii) : bool :=
  if existsb (λ candidate, contains candidate output) permission_errors
  then false
  else if search localized_error output
  then false
  else if contains (b "clcache.__main__.CacheLockException") output
  then false
  else true.

(** ** main of compare_with_cpython: the mode arguments *)

(** What can stop a tool: [sys.exit] with a message, or an exception that
    nothing catches; [ExternalFailure] stands for whatever a function of
    another module raises. *)
Inductive tool_error : Type :=
| IndexError
| ValueError
| AssertionError
| UnboundLocalError
| AttributeError
| ExternalFailure.

Inductive ending (A : Type) : Type :=
| Finished (a : A)
| SystemExit (message : string)
| Uncaught (e : tool_error).

Arguments Finished {A} a.
Arguments SystemExit {A} message.
Arguments Uncaught {A} e.

(** [list.remove(x)]: the first element equal to [x] is taken out; there is
    no result, the [ValueError] of Python, when no element is. *)
Fixpoint remove_first (x : string) (l : list string) : option (list string) :=
  match l with
  | [] => None
  | y :: l => if decide (y = x) then Some l else (y ::.) <$> remove_first x l
  end.

(** Lines 144 to 149, the closure [hasArg] over the list [args]:
    [args.remove] takes out the first element equal to [arg] and raises
    [ValueError] when there is none. *)
Definition hasArg (arg : string) (args : list string)
    : ending (bool * list string) :=
  if decide (arg ∈ args) then
    match remove_first arg args with
    | Some args => Finished (true, args)
    | None => Uncaught ValueError
    end
  else Finished (false, args).

(** The mode words, in the order of the [hasArg] calls of lines 154 to 177. *)
Definition mode_words : list string :=
  ["silent"; "ignore_stderr"; "ignore_warnings"; "ignore_infos";
   "expect_success"; "expect_failure"; "python_debug"; "module_mode";
   "two_step_execution"; "binary_python_path"; "keep_python_path";
   "trace_command"; "remove_output"; "standalone"; "no_site"; "recurse_none";
   "recurse_all"; "timing"; "coverage"; "original_file"; "warnings";
   "improved"; "cpython_cache"; "syntax_errors"].

(** The calls [hasArg(word)] for the given words one after the other; the
    words that were found are collected. *)
Fixpoint hasArgs (words : list string) (args : list string)
    : ending (list string * list string) :=
  match words with
  | [] => Finished ([], args)
  | word :: words =>
    match hasArg word args with
    | Finished (present, args) =>
      match hasArgs words args with
      | Finished (found, args) =>
        Finished (if present then word :: found else found, args)
      | SystemExit message => SystemExit message
      | Uncaught e => Uncaught e
      end
    | SystemExit message => SystemExit message
    | Uncaught e => Uncaught e
    end
  end.

(** [arg[len(prefix):]]. *)
Definition after_prefix (prefix arg : string) : string :=
  String.substring (String.length prefix)
                   (String.length arg - String.length prefix) arg.

(** Lines 181 to 184 and their three repetitions: the loop over
    [reversed(tuple(enumerate(args)))], which appends the value of every
    argument that starts with the prefix and deletes the argument by its
    index; [del args[count]] raises [IndexError] out of range. *)
Fixpoint take_prefixed_loop (prefix : string) (items : list (nat * string))
    (values : list string) (args : list string)
    : ending (list string * list string) :=
  match items with
  | [] => Finished (values, args)
  | (count, arg) :: items =>
    if String.prefix prefix arg then
      if decide (count < length args)%nat then
        take_prefixed_loop prefix items
          (values ++ [after_prefix prefix arg]) (delete count args)
      else Uncaught IndexError
    else take_prefixed_loop prefix items values args
  end.

Definition take_prefixed (prefix : string) (args : list string)
    : ending (list string * list string) :=
  take_prefixed_loop prefix (reverse (imap (λ count arg, (count, arg)) args))
                     [] args.

(** The locals that the mode arguments set, lines 154 to 220. *)
Record modes : Type := Modes {
  silent_mode : bool;
  ignore_stderr : bool;
  ignore_warnings : bool;
  ignore_infos : bool;
  expect_success : bool;
  expect_failure : bool;
  python_debug : bool;
  module_mode : bool;
  two_step_execution : bool;
  binary_python_path : bool;
  keep_python_path : bool;
  trace_command : bool;
  remove_output : bool;
  standalone_mode : bool;
  no_site : bool;
  recurse_none : bool;
  recurse_all : bool;
  timing : bool;
  coverage_mode : bool;
  original_file : bool;
  no_warnings : bool;
  full_compat : bool;
  cpython_cached : bool;
  syntax_errors : bool;
  comparison_mode : bool;
  plugins_enabled : list string;
  plugins_disabled : list string;
  recurse_not : list string;
  recurse_to : list string
}.

(** [os.environ.get("NUITKA_TRACE_COMMANDS", '0') != '0']. *)
Definition trace_commands_set (environ : gmap string string) : bool :=
  negb (String.eqb (default "0" (environ !! "NUITKA_TRACE_COMMANDS")) "0").

(** Lines 142 to 223 of [main]: the mode words are taken out of [args], then
    the prefixed arguments; what is left is not understood; coverage mode
    overrides two flags; two pairs of modes exclude each other. *)
Definition parseModes (environ : gmap string string) (args : list string)
    : ending modes :=
  match hasArgs mode_words args with
  | Finished (found, args) =>
    let has word := bool_decide (word ∈ found) in
    match take_prefixed "plugin_enable:" args with
    | Finished (plugins_enabled, args) =>
    match take_prefixed "plugin_disable:" args with
    | Finished (plugins_disabled, args) =>
    match take_prefixed "recurse_not:" args with
    | Finished (recurse_not, args) =>
    match take_prefixed "recurse_to:" args with
    | Finished (recurse_to, args) =>
      if bool_decide (args ≠ []) then
        SystemExit ("Error, non understood mode(s) '"
                    +:+ String.concat "," args +:+ "',")
      else
        let coverage_mode := has "coverage" in
        let two_step_execution :=
          if coverage_mode then true else has "two_step_execution" in
        let python_debug :=
          if coverage_mode then false else has "python_debug" in
        let comparison_mode := negb coverage_mode in
        if negb (negb (has "standalone") || negb (has "module_mode"))
        then Uncaught AssertionError
        else if negb (negb (has "recurse_all") || negb (has "recurse_none"))
        then Uncaught AssertionError
        else Finished {|
          silent_mode := has "silent";
          ignore_stderr := has "ignore_stderr";
          ignore_warnings := has "ignore_warnings";
          ignore_infos := has "ignore_infos";
          expect_success := has "expect_success";
          expect_failure := has "expect_failure";
          python_debug := python_debug;
          module_mode := has "module_mode";
          two_step_execution := two_step_execution;
          binary_python_path := has "binary_python_path";
          keep_python_path := has "keep_python_path";
          trace_command := has "trace_command" || trace_commands_set environ;
          remove_output := has "remove_output";
          standalone_mode := has "standalone";
          no_site := has "no_site";
          recurse_none := has "recurse_none";
          recurse_all := has "recurse_all";
          timing := has "timing";
          coverage_mode := coverage_mode;
          original_file := has "original_file";
          no_warnings := negb (has "warnings");
          full_compat := negb (has "improved");
          cpython_cached := has "cpython_cache";
          syntax_errors := has "syntax_errors";
          comparison_mode := comparison_mode;
          plugins_enabled := plugins_enabled;
          plugins_disabled := plugins_disabled;
          recurse_not := recurse_not;
          recurse_to := recurse_to
        |}
    | SystemExit message => SystemExit message
    | Uncaught e => Uncaught e
    end
    | SystemExit message => SystemExit message
    | Uncaught e => Uncaught e
    end
    | SystemExit message => SystemExit message
    | Uncaught e => Uncaught e
    end
    | SystemExit message => SystemExit message
    | Uncaught e => Uncaught e
    end
  | SystemExit message => SystemExit message
  | Uncaught e => Uncaught e
  end.

(** How often [x] occurs in [l]. *)
Definition occurrences (x : string) (l : list string) : nat :=
  length (filter (λ y, y = x) l).

(** Whether an argument carries one of the four prefixes. *)
Definition prefixed (arg : string) : bool :=
  String.prefix "plugin_enable:" arg || String.prefix "plugin_disable:" arg
  || String.prefix "recurse_not:" arg || String.prefix "recurse_to:" arg.

(** The four prefixes of lines 182, 189, 196 and 203. *)
Definition the_prefixes : list string :=
  ["plugin_enable:"; "plugin_disable:"; "recurse_not:"; "recurse_to:"].

(** ** getCPythonResults: running CPython, with retries and a cache *)

(** The tuple that is returned and pickled into the cache. *)
Record results (Seconds : Type) : Type := Results {
  cpython_time : Seconds;
  stdout_cpython : list ascii;
  stderr_cpython : list ascii;
  exit_cpython : Z
}.

Arguments Results {Seconds} _ _ _ _.
Arguments cpython_time {Seconds} _.
Arguments stdout_cpython {Seconds} _.
Arguments stderr_cpython {Seconds} _.
Arguments exit_cpython {Seconds} _.

(** What the function acts on: the files of the cache directory, by name,
    with the tuple pickled in each; and counters of the processes launched,
    of the readings of the clock and of the two second sleeps so far. *)
Record machine (Seconds : Type) : Type := Machine {
  cache : gmap string (results Seconds);
  launched : nat;
  clock_reads : nat;
  slept : nat
}.

Arguments Machine {Seconds} _ _ _ _.
Arguments cache {Seconds} _.
Arguments launched {Seconds} _.
Arguments clock_reads {Seconds} _.
Arguments slept {Seconds} _.

Section CPythonResults.
Context {Seconds : Type}.

(** What the n-th process launched writes and returns:
    [subprocess.Popen], [communicate] and [returncode]. *)
Variable process : nat → list string → list ascii * list ascii * Z.

(** The n-th reading of [time.time()], and the difference of two readings. *)
Variable now : nat → Seconds.
Variable minus : Seconds → Seconds → Seconds.

(** Lines 79 to 92: the name of the cache file, the hexdigest over the command
    line and the content of the files it names, these being left alone by the
    function. *)
Variable cache_filename : list string → string.

Definition read_clock (m : machine Seconds) : Seconds * machine Seconds :=
  (now (clock_reads m),
   Machine (cache m) (launched m) (S (clock_reads m)) (slept m)).

(** Lines 105 to 123, the loop [for _i in range(5)], with the number of
    rounds that remain; [last] holds the locals that the latest round
    assigned. *)
Fixpoint retry (remaining : nat) (cpython_cmd : list string) (start_time : Seconds)
    (last : option (list ascii * list ascii * Z)) (m : machine Seconds)
    : Seconds * option (list ascii * list ascii * Z) * machine Seconds :=
  match remaining with
  | 0 => (start_time, last, m)
  | S remaining =>
    let '(stdout_cpython, stderr_cpython, exit_cpython) :=
      process (launched m) cpython_cmd in
    let m := Machine (cache m) (S (launched m)) (clock_reads m) (slept m) in
    let last := Some (stdout_cpython, stderr_cpython, exit_cpython) in
    if checkNoPermissionError stdout_cpython
       && checkNoPermissionError stderr_cpython
    then (start_time, last, m)
    else
      let m := Machine (cache m) (launched m) (clock_reads m) (S (slept m)) in
      let '(start_time, m) := read_clock m in
      retry remaining cpython_cmd start_time last m
  end.

(** Lines 74 to 134. *)
Definition getCPythonResults (cpython_cmd : list string) (cpython_cached : bool)
    (m : machine Seconds) : ending (results Seconds) * machine Seconds :=
  match (if cpython_cached then cache m !! cache_filename cpython_cmd else None) with
  | Some r => (Finished r, m)
  | None =>
    let '(start_time, m) := read_clock m in
    let '(start_time, last, m) := retry 5 cpython_cmd start_time None m in
    match last with
    | None => (Uncaught UnboundLocalError, m)
    | Some (stdout_cpython, stderr_cpython, exit_cpython) =>
      let '(end_time, m) := read_clock m in
      let r := Results (minus end_time start_time)
                       stdout_cpython stderr_cpython exit_cpython in
      let m :=
        if cpython_cached
        then Machine (<[cache_filename cpython_cmd := r]> (cache m))
                     (launched m) (clock_reads m) (slept m)
        else m in
      (Finished r, m)
    end
  end.

(** The output of a process is free of permission problems. *)
Definition clean (run : list ascii * list ascii * Z) : bool :=
  checkNoPermissionError run.1.1 && checkNoPermissionError run.1.2.

End CPythonResults.

(** * release/pypi/__main__.py *)

(** What the release tool does to the outside, in order. *)
Inductive action : Type :=
| Rmtree (path : string)
| Documentation
| System (command : string)
| Virtualenv (python_exe : string)
| RunCommand (command : string).

(** An installed Python as [findInstalledPython] returns it. *)
Record python : Type := Python {
  getPythonExe : string;
  getPythonVersion : string
}.

(** A step of the tool: from the actions done so far to how the step ends
    and the actions done then. *)
Definition release (A : Type) : Type := list action → ending A * list action.

Definition ret {A : Type} (a : A) : release A := λ done, (Finished a, done).

Definition raise {A : Type} (e : tool_error) : release A :=
  λ done, (Uncaught e, done).

Definition bind {A B : Type} (s : release A) (k : A → release B) : release B :=
  λ done,
    match s done with
    | (Finished a, done) => k a done
    | (SystemExit message, done) => (SystemExit message, done)
    | (Uncaught e, done) => (Uncaught e, done)
    end.

Notation "s >>> k" := (bind s (λ _, k))
  (at level 60, right associativity).

Definition assert (condition : bool) : release unit :=
  if condition then ret tt else raise AssertionError.

Section Release.

(** The exit status that [os.system] gives for a command, after the actions
    done before it. *)
Variable exit_status : list action → string → Z.

(** Whether a function of another module raises: the documentation build,
    the making of a virtualenv, a command run inside it.  What leaving the
    [with] block of the virtualenv does is not recorded. *)
Variable documentation_fails : list action → bool.
Variable virtualenv_fails : list action → string → bool.
Variable command_fails : list action → string → bool.

(** [findInstalledPython(python_versions=(version,), ...)]: the Python found,
    or None. *)
Variable findInstalledPython : string → option python.

Definition rmtree (path : string) : release unit :=
  λ done, (Finished tt, done ++ [Rmtree path]).

Definition createReleaseDocumentation : release unit :=
  λ done,
    (if documentation_fails done then Uncaught ExternalFailure else Finished tt,
     done ++ [Documentation]).

(** [os.system(command)]. *)
Definition system (command : string) : release Z :=
  λ done, (Finished (exit_status done command), done ++ [System command]).

(** [assert os.system(command) == 0]. *)
Definition assert_system (command : string) : release unit :=
  bind (system command) (λ status, assert (status =? 0)%Z).

Definition withVirtualenv (python_exe : string) : release unit :=
  λ done,
    (if virtualenv_fails done python_exe
     then Uncaught ExternalFailure else Finished tt,
     done ++ [Virtualenv python_exe]).

Definition runCommand (command : string) : release unit :=
  λ done,
    (if command_fails done command then Uncaught ExternalFailure else Finished tt,
     done ++ [RunCommand command]).

(** Lines 34 to 57; [python] is None when no such Python is installed, and
    then [python.getPythonExe()] raises. *)
Definition _checkNuitkaInVirtualenv (python : option python) : release unit :=
  match python with
  | None => raise AttributeError
  | Some python =>
    withVirtualenv (getPythonExe python) >>>
    runCommand "python -m pip install ../dist/Nuitka*.tar.gz" >>>
    match getPythonVersion python with
    | EmptyString => raise IndexError
    | String major _ =>
      runCommand ("nuitka" +:+ String major EmptyString
                  +:+ " ../tests/basics/AssertsTest.py") >>>
      runCommand "python -m nuitka ../tests/basics/AssertsTest.py"
    end
  end.

Fixpoint for_each {A : Type} (body : A → release unit) (items : list A) : release unit :=
  match items with
  | [] => ret tt
  | item :: items => body item >>> for_each body items
  end.

(** [x in s] on strings. *)
Definition in_string (x s : string) : bool := contains (b x) (b s).

(** Lines 60 to 114, for the version that [getNuitkaVersion()] returns, the
    branch that [checkBranchName()] returns, [sys.argv] and
    [sys.executable].  What [my_print] writes is not modelled. *)
Definition main (nuitka_version branch_name : string) (argv : list string)
    (executable : string) : release unit :=
  let check_mode := bool_decide ("--check" ∈ argv) in
  (if negb check_mode then
     assert (String.eqb branch_name "main") >>>
     assert (negb (in_string "pre" nuitka_version)
             && negb (in_string "rc" nuitka_version))
   else ret tt) >>>
  rmtree "check_nuitka" >>>
  rmtree "dist" >>>
  createReleaseDocumentation >>>
  assert_system ("umask 0022 && chmod -R a+rX . && " +:+ executable
                 +:+ " setup.py sdist") >>>
  assert_system "gunzip dist/Nuitka*.tar.gz" >>>
  assert_system "tar --wildcards --delete --file dist/Nuitka*.tar Nuitka-*/Nuitka.egg-info/requires.txt" >>>
  assert_system "gzip -9 dist/Nuitka*.tar" >>>
  let pythons := [findInstalledPython "2.7"; findInstalledPython "3.10"] in
  for_each _checkNuitkaInVirtualenv pythons >>>
  assert_system "twine check dist/*" >>>
  if negb check_mode then assert_system "twine upload dist/*" else ret tt.

(** Every [os.system] command among the actions returned status 0. *)
Definition all_succeeded (actions : list action) : Prop :=
  ∀ before command after,
    actions = before ++ System command :: after →
    exit_status before command = 0%Z.

(** Every [os.system] command but the last action returned status 0. *)
Definition all_but_last_succeeded (actions : list action) : Prop :=
  ∀ before command after,
    actions = before ++ System command :: after → after ≠ [] →
    exit_status before command = 0%Z.

Definition upload : action := System "twine upload dist/*".

(** The state between two steps of a run that goes on: nothing failed and
    nothing is uploaded. *)
Definition tidy (done : list action) : Prop :=
  all_succeeded done ∧ upload ∉ done.

(** The state a run may stop in. *)
Definition almost (done : list action) : Prop :=
  all_but_last_succeeded done ∧ upload ∉ done.

(** A step that uploads nothing and stops when a command fails. *)
Definition careful (s : release unit) : Prop :=
  ∀ done r done',
    s done = (r, done') → tidy done →
    almost done' ∧ (r = Finished tt → tidy done').

(** [Q] holds of the way [s] ends after [done]. *)
Definition runs (s : release unit) (Q : ending unit → list action → Prop)
    (done : list action) : Prop :=
  Q (s done).1 (s done).2.

(** What is known when an upload is among the actions. *)
Definition uploaded (nuitka_version branch_name : string) (argv : list string)
    (actions : list action) : Prop :=
  ("--check" ∉ argv) ∧ branch_name = "main" ∧
  in_string "pre" nuitka_version = false ∧
  in_string "rc" nuitka_version = false ∧
  is_Some (findInstalledPython "2.7") ∧
  is_Some (findInstalledPython "3.10") ∧
  ∃ before,
    actions = before ++ [upload] ∧
    all_succeeded before ∧ (upload ∉ before) ∧
    System "twine check dist/*" ∈ before.

End Release.

(** * Properties *)

(** ** The tag set and the ordered set *)

Lemma check_conjunction (tags : Tags.TagSet) (predicate : string) :
  Tags.check tags predicate = true ↔
  ∀ tag, tag ∈ String.words predicate → tag ∈ tags.
Proof.
  unfold Tags.check. generalize (String.words predicate).
  intros ts. induction ts as [|t ts IH]; simpl.
  - split; [intros _ tag Hin; inversion Hin | done].
  - rewrite andb_true_iff, bool_decide_eq_true, IH. split.
    + intros [Ht Hts] tag Hin. apply elem_of_cons in Hin as [->|Hin]; auto.
    + intros Hall. split; [apply Hall; by left|].
      intros tag Hin. apply Hall. by right.
Qed.

Lemma check_single (tags : Tags.TagSet) :
  Tags.check tags "new_code" = true ↔ "new_code" ∈ tags.
Proof.
  rewrite check_conjunction. change (String.words "new_code") with ["new_code"].
  split; [intros Hall; apply Hall; set_solver | intros Hin tag Htag].
  by apply list_elem_of_singleton in Htag as ->.
Qed.

Section OrderedSetFacts.
Context {A : Type} `{EqDecision A}.
Implicit Types (q : oset.OrderedSet A) (xs : list A).

Lemma add_present q x : x ∈ q → oset.add q x = q.
Proof. intros Hin. unfold oset.add. by rewrite decide_True. Qed.

Lemma add_absent q x : x ∉ q → oset.add q x = q ++ [x].
Proof. intros Hin. unfold oset.add. by rewrite decide_False. Qed.

Lemma update_app q xs ys :
  oset.update q (xs ++ ys) = oset.update (oset.update q xs) ys.
Proof. apply foldl_app. Qed.

Lemma add_NoDup q x : NoDup q → NoDup (oset.add q x).
Proof.
  intros Hq. unfold oset.add. case_decide; [done|].
  apply NoDup_app. split_and!; [done| |apply NoDup_singleton].
  intros y Hy Hx. apply list_elem_of_singleton in Hx. by subst.
Qed.

Lemma update_NoDup q xs : NoDup q → NoDup (oset.update q xs).
Proof.
  revert q. induction xs as [|x xs IH]; intros q Hq; [done|].
  apply IH, add_NoDup, Hq.
Qed.

End OrderedSetFacts.

(** ** The eligibility table and refresh *)

Section TableFacts.
Context {Pass : Type} `{EqDecision Pass}.
Implicit Types (q : oset.OrderedSet Pass) (xs : list Pass).
Implicit Types (rules : list (rule Pass)) (tags : Tags.TagSet).

Lemma inserted_ext q q' xs :
  (∀ p, p ∈ q ↔ p ∈ q') → inserted q xs = inserted q' xs.
Proof.
  revert q q'. induction xs as [|x xs IH]; intros q q' Hqq'; simpl; [done|].
  destruct (decide (x ∈ q)) as [Hx|Hx].
  - rewrite decide_True by (by apply Hqq'). by apply IH.
  - rewrite decide_False by (by rewrite <- Hqq').
    f_equal. apply IH. intros p. rewrite !elem_of_app, Hqq'. done.
Qed.

Lemma update_inserted q xs : oset.update q xs = q ++ inserted q xs.
Proof.
  revert q. induction xs as [|x xs IH]; intros q; simpl.
  - by rewrite app_nil_r.
  - unfold oset.update in *. simpl. unfold oset.add at 2.
    destruct (decide (x ∈ q)); rewrite IH; [done|].
    by rewrite <- app_assoc.
Qed.

Lemma inserted_filter_app q r xs :
  inserted (q ++ r) xs = filter (λ p, p ∉ q) (inserted r xs).
Proof.
  revert r. induction xs as [|x xs IH]; intros r; simpl; [done|].
  destruct (decide (x ∈ r)) as [Hr|Hr].
  - rewrite decide_True by (apply elem_of_app; by right). apply IH.
  - destruct (decide (x ∈ q)) as [Hq|Hq].
    + rewrite decide_True by (apply elem_of_app; by left).
      rewrite filter_cons_False by (by intros Hn).
      rewrite <- IH. apply inserted_ext. intros p.
      rewrite !elem_of_app, list_elem_of_singleton.
      intuition (subst; auto).
    + rewrite decide_False by (rewrite elem_of_app; tauto).
      rewrite filter_cons_True by done.
      f_equal. rewrite <- IH. by rewrite <- app_assoc.
Qed.

Lemma inserted_filter q xs :
  inserted q xs = filter (λ p, p ∉ q) (inserted [] xs).
Proof. rewrite <- inserted_filter_app. by rewrite app_nil_r. Qed.

Lemma inserted_fresh q xs p : p ∈ inserted q xs → p ∉ q.
Proof.
  revert q. induction xs as [|x xs IH]; intros q; simpl; [by inversion 1|].
  destruct (decide (x ∈ q)) as [Hx|Hx]; [by apply IH|].
  intros [->|Hin]%elem_of_cons; [done|].
  apply IH in Hin. rewrite elem_of_app in Hin. tauto.
Qed.

Lemma inserted_NoDup q xs : NoDup (inserted q xs).
Proof.
  revert q. induction xs as [|x xs IH]; intros q; simpl; [constructor|].
  destruct (decide (x ∈ q)) as [Hx|Hx]; [by apply IH|].
  constructor; [|by apply IH].
  intros Hin%inserted_fresh. apply Hin, elem_of_app. right. by left.
Qed.

Lemma evaluate_nominated rules tags q :
  evaluate rules tags q =
  match unbound_hit rules tags with
  | Some name => Raise (NameError name) (oset.update q (nominated rules tags))
  | None => Return tt (oset.update q (nominated rules tags))
  end.
Proof.
  revert q. induction rules as [|r rules IH]; intros q; simpl; [done|].
  destruct (target r) as [ps|name].
  - rewrite IH, update_app. by destruct (fires tags r).
  - destruct (fires tags r); [done|]. apply IH.
Qed.

End TableFacts.

Section RefreshFacts.
Context {Pass : Type} `{EqDecision Pass} `{Visitors Pass} `{Options}.
Implicit Types (q : oset.OrderedSet Pass) (tags : Tags.TagSet).

Lemma evaluate_passes (predicate : string) (config : bool) (ps : list Pass)
    (rules : list (rule Pass)) tags q :
  evaluate (Rule predicate config (Passes ps) :: rules) tags q =
  evaluate rules tags
    (if config && Tags.check tags predicate then oset.update q ps else q).
Proof. reflexivity. Qed.

Lemma let_intro {A B : Type} (e : A) (body : A → B) (rhs : B) :
  (∀ x, x = e → body x = rhs) → (let x := e in body x) = rhs.
Proof. intros Hbody. by apply Hbody. Qed.

(** One conditional of the source against one rule of the table: the local
    [q] after the conditional is the queue the rule hands on. *)
Ltac one_rule :=
  lazymatch goal with
  | |- (let x := ?e in @?body x) = ?rhs =>
    refine (let_intro e body rhs _); intros ? ?; cbv beta;
    rewrite evaluate_passes;
    lazymatch goal with
    | Hx : ?x = _ |- _ = match evaluate _ _ ?arg with _ => _ end =>
      let Harg := fresh in
      assert (arg = x) as Harg
        by (rewrite Hx;
            repeat match goal with
                   | |- context [Tags.check ?t ?p] => destruct (Tags.check t p)
                   end;
            try destruct use_propagation; try destruct shallMakeModule;
            try destruct shallOptimizeStringExec; reflexivity);
      rewrite Harg; clear Harg Hx
    end
  end.

(** The chain of conditionals of the source is the evaluation of its table. *)
Lemma refresh_as_table q tags :
  refreshOptimizationsFromTags q tags = refreshFromTable EligibilityTable q tags.
Proof.
  cbv beta delta [refreshOptimizationsFromTags refreshFromTable EligibilityTable].
  lazymatch goal with
  | |- (let x := ?e in @?body x) = ?rhs =>
    refine (let_intro e body rhs _); intros q0 ->; cbv beta
  end.
  do 15 one_rule.
  simpl. unfold fires. simpl.
  destruct use_propagation; simpl; try done.
  by destruct (Tags.check tags _).
Qed.

End RefreshFacts.

Section RefreshOutcome.
Context {Pass : Type} `{EqDecision Pass} `{Visitors Pass} `{Options}.
Implicit Types (q : oset.OrderedSet Pass) (tags : Tags.TagSet).

(** What a refresh does, in one equation: the nominated passes that are not
    queued yet are appended in rule order; the tag set is cleared unless the
    unbound name is reached. *)
Lemma refresh_outcome q tags :
  refreshOptimizationsFromTags q tags =
  match unbound_hit EligibilityTable tags with
  | Some name =>
    Raise (NameError name) (q ++ inserted q (nominated EligibilityTable tags), tags)
  | None =>
    Return tt (q ++ inserted q (nominated EligibilityTable tags), ∅)
  end.
Proof.
  rewrite refresh_as_table. unfold refreshFromTable.
  rewrite evaluate_nominated, update_inserted.
  by destruct (unbound_hit EligibilityTable tags).
Qed.

Lemma unbound_hit_table tags :
  unbound_hit EligibilityTable tags =
  if use_propagation
     && Tags.check tags "new_code new_statements new_constant new_builtin"
  then Some "ValuePropagationVisitor" else None.
Proof. reflexivity. Qed.

Lemma check_needs_other_tag (predicate : string) :
  (∃ tag, tag ∈ String.words predicate ∧ tag ≠ "new_code") →
  Tags.check (Tags.add Tags.empty "new_code") predicate = false.
Proof.
  intros (tag & Hin & Hne). apply not_true_is_false. intros Hcheck.
  rewrite check_conjunction in Hcheck. apply Hcheck in Hin.
  unfold Tags.add, Tags.empty in Hin.
  apply elem_of_union in Hin as [Hin%elem_of_singleton|Hin]; [done|].
  by apply not_elem_of_empty in Hin.
Qed.


Ltac other_tag t :=
  exists t; split; apply (bool_decide_unpack _); vm_compute; exact I.

Lemma table_needs_other_tag :
  Forall (λ r : rule Pass,
            ∃ tag, tag ∈ String.words (required r) ∧ tag ≠ "new_code")
         EligibilityTable.
Proof.
  unfold EligibilityTable.
  repeat (apply Forall_cons; split;
          [simpl; first [ other_tag "new_variable" | other_tag "new_constant"
                 | other_tag "read_only_mvar" | other_tag "new_builtin"
                 | other_tag "new_raise" ]|]).
  apply Forall_nil_2.
Qed.

Lemma silent_rules (rules : list (rule Pass)) tags :
  Forall (λ r, Tags.check tags (required r) = false) rules →
  nominated rules tags = [] ∧ unbound_hit rules tags = None.
Proof.
  induction 1 as [|r rules Hr _ [IHn IHu]]; [done|]. simpl. unfold fires.
  rewrite Hr, andb_false_r. by destruct (target r).
Qed.

Lemma seed_refresh :
  refreshOptimizationsFromTags oset.empty (Tags.add Tags.empty "new_code")
  = Return tt ([], ∅).
Proof.
  rewrite refresh_outcome.
  destruct (silent_rules EligibilityTable (Tags.add Tags.empty "new_code"))
    as [-> ->]; [|done].
  eapply Forall_impl; [apply table_needs_other_tag|].
  intros r. apply check_needs_other_tag.
Qed.

End RefreshOutcome.

(** ** Claims on the work queue and on refresh *)

(** C7.  Starting from an empty work queue, [add(P1); add(P2); add(P1)] leaves
    P1 before P2: the second insertion of P1 is a no-op that does not move it,
    the first pop returns P1, the second returns P2, and the queue is then
    empty. *)
Theorem queue_scenario {A : Type} `{EqDecision A} (P1 P2 : A) :
  P1 ≠ P2 →
  let q := oset.add (oset.add (oset.add oset.empty P1) P2) P1 in
  q = oset.add (oset.add oset.empty P1) P2 ∧
  ∃ q1 q2, oset.pop_first q = Some (P1, q1) ∧
           oset.pop_first q1 = Some (P2, q2) ∧
           oset.nonempty q2 = false.
Proof.
  intros Hne. simpl. unfold oset.empty.
  rewrite (add_absent [] P1) by (by intros Hin%elem_of_nil).
  simpl. rewrite (add_absent [P1] P2)
    by (intros Hin%list_elem_of_singleton; congruence).
  simpl. rewrite (add_present [P1; P2] P1) by (by left).
  split; [done|]. by exists [P2], [].
Qed.

Lemma queue_scenario_witness :
  "P1" ≠ "P2" ∧
  let q := oset.add (oset.add (oset.add oset.empty "P1") "P2") "P1" in
  q = oset.add (oset.add oset.empty "P1") "P2" ∧
  ∃ q1 q2, oset.pop_first q = Some ("P1", q1) ∧
           oset.pop_first q1 = Some ("P2", q2) ∧
           oset.nonempty q2 = false.
Proof.
  assert (Hne : "P1" ≠ "P2") by done.
  exact (conj Hne (queue_scenario "P1" "P2" Hne)).
Defined.

(** C5.  With the tag set exactly new_code and a table holding a rule that
    requires new_code and new_variable for PassX and a rule that requires
    new_code for PassY, a refresh leaves the queue [PassY]: PassY is enqueued,
    PassX is not, because [check] holds iff every tag of the predicate is
    present. *)
Theorem refresh_scenario {Pass : Type} `{EqDecision Pass} (PassX PassY : Pass) :
  PassX ≠ PassY →
  let seed := Tags.add Tags.empty "new_code" in
  let table := [Rule "new_code new_variable" true (Passes [PassX]);
                Rule "new_code" true (Passes [PassY])] in
  refreshFromTable table oset.empty seed = Return tt ([PassY], ∅) ∧
  (PassX ∉ [PassY]) ∧
  Tags.check seed "new_code new_variable" = false ∧
  Tags.check seed "new_code" = true ∧
  ∀ tags predicate,
    Tags.check tags predicate = true ↔
    ∀ tag, tag ∈ String.words predicate → tag ∈ tags.
Proof.
  intros Hne seed table.
  assert (Hx : Tags.check seed "new_code new_variable" = false).
  { apply check_needs_other_tag. exists "new_variable".
    split; apply (bool_decide_unpack _); vm_compute; exact I. }
  assert (Hy : Tags.check seed "new_code" = true).
  { apply check_single. unfold seed, Tags.add. apply elem_of_union. left.
    by apply elem_of_singleton. }
  split_and!; [|by intros ->%list_elem_of_singleton|done|done|
               apply check_conjunction].
  unfold refreshFromTable, table. simpl. unfold fires. simpl.
  rewrite Hx, Hy. simpl. unfold oset.update, oset.empty. simpl.
  rewrite add_absent by (by intros Hin%elem_of_nil). done.
Qed.

Lemma refresh_scenario_witness :
  "PassX" ≠ "PassY" ∧
  (refreshFromTable [Rule "new_code new_variable" true (Passes ["PassX"]);
                     Rule "new_code" true (Passes ["PassY"])]
                    oset.empty (Tags.add Tags.empty "new_code")
   = Return tt (["PassY"], ∅)).
Proof.
  assert (Hne : "PassX" ≠ "PassY") by done.
  exact (conj Hne (proj1 (refresh_scenario "PassX" "PassY" Hne))).
Defined.

(** C9.  Refresh is deterministic.  Under one configuration, two refreshes of
    the same tag set, whatever their queues [q1] and [q2], draw the passes they
    enqueue from one duplicate free list [order] that depends on the tags
    only, each keeping the passes it does not hold yet, in the order of
    [order]; they leave the same tag set and end the same way; from equal
    queues they give equal results. *)
Theorem refresh_deterministic {Pass : Type} `{EqDecision Pass}
    `{Visitors Pass} `{Options} (tags : Tags.TagSet)
    (q1 q2 : oset.OrderedSet Pass) :
  let r1 := refreshOptimizationsFromTags q1 tags in
  let r2 := refreshOptimizationsFromTags q2 tags in
  ∃ order : list Pass,
    NoDup order ∧
    (final_state r1).1 = q1 ++ filter (λ p, p ∉ q1) order ∧
    (final_state r2).1 = q2 ++ filter (λ p, p ∉ q2) order ∧
    (final_state r1).2 = (final_state r2).2 ∧
    (∀ e, (∃ s, r1 = Raise e s) ↔ (∃ s, r2 = Raise e s)) ∧
    (q1 = q2 → r1 = r2).
Proof.
  intros r1 r2. subst r1 r2.
  exists (inserted [] (nominated EligibilityTable tags)).
  rewrite !refresh_outcome.
  rewrite (inserted_filter q1), (inserted_filter q2).
  split; [apply inserted_NoDup|].
  destruct (unbound_hit EligibilityTable tags) as [name|]; simpl;
    (split_and!; [done|done|done| |by intros ->]).
  - intros e. split; intros [s [= <-]]; eauto.
  - intros e. split; intros [s [=]].
Qed.

(** C4, at the input on which the code departs from it.  With value
    propagation switched on and the tags new_code, new_statements,
    new_constant and new_builtin present, the last conditional of a refresh
    raises [NameError] for the name [ValuePropagationVisitor]: that rule
    contributes no pass and the tag set is not cleared. *)
Theorem refresh_unbound_visitor :
  let seen : Tags.TagSet :=
    {["new_code"; "new_statements"; "new_constant"; "new_builtin"]} in
  @refreshOptimizationsFromTags string _ named_visitors propagation_options
    oset.empty seen
  = Raise (NameError "ValuePropagationVisitor")
          (["OptimizeFunctionCallArgsVisitor"; "ReplaceUnpackingVisitor"], seen).
Proof. vm_compute. reflexivity. Qed.

(** ** The scheduler loop *)

Section SchedulerFacts.
Context {Pass Tree World : Type} `{EqDecision Pass}.
Context `{Visitors Pass} `{Options}.
Variable execute : Pass → Tree → World → outcome World (list string).
Implicit Types (st : scheduler Pass World) (tree : Tree) (w : World).

Lemma refresh_history st :
  history (final_state (refresh st)) = history st ++ [Refreshed].
Proof.
  unfold refresh.
  by destruct (refreshOptimizationsFromTags _ _) as [? [??]|? [??]|[??]].
Qed.

Lemma nonempty_false (q : oset.OrderedSet Pass) :
  oset.nonempty q = false ↔ q = [].
Proof. by destruct q. Qed.

Lemma refresh_condition (queue : oset.OrderedSet Pass) (t : Tags.TagSet) :
  negb (oset.nonempty queue) || Tags.check t "new_code" = true ↔
  queue = [] ∨ "new_code" ∈ t.
Proof.
  rewrite orb_true_iff, negb_true_iff, nonempty_false, check_single. done.
Qed.

(** C1.  In the running state, once the popped pass has returned, a refresh is
    performed iff the queue is empty or the tag new_code is present: then the
    iteration is that refresh, and the history gains the pass and the refresh.
    In every other case the iteration ends in the state the pass left, the
    history gains the pass only, and the loop goes on to pop the next pass of
    the non empty queue. *)
Theorem refresh_iff_drained_or_new_code tree st
    (next_optimization : Pass) (queue : oset.OrderedSet Pass)
    (signals : list string) w :
  oset.pop_first (optimizations_queue st) = Some (next_optimization, queue) →
  execute next_optimization tree (sworld st) = Return signals w →
  let st' := executed st next_optimization queue signals w in
  let after := applyNext execute tree st in
  (Refreshed ∈ drop (length (history st)) (history (final_state after)) ↔
   queue = [] ∨ "new_code" ∈ tags st') ∧
  (queue = [] ∨ "new_code" ∈ tags st' →
   after = refresh st' ∧
   history (final_state after)
   = history st ++ [Applying next_optimization; Refreshed]) ∧
  (¬ (queue = [] ∨ "new_code" ∈ tags st') →
   after = Return tt st' ∧
   history st' = history st ++ [Applying next_optimization] ∧
   (∃ p q, oset.pop_first (optimizations_queue st') = Some (p, q)) ∧
   ∀ fuel, optimizationLoop execute (S fuel) tree st
           = optimizationLoop execute fuel tree st').
Proof.
  intros Hpop Hexec st' after.
  assert (Hyes : queue = [] ∨ "new_code" ∈ tags st' →
    after = refresh st' ∧
    history (final_state after)
    = history st ++ [Applying next_optimization; Refreshed]).
  { intros Hcond%refresh_condition.
    assert (after = refresh st') as ->.
    { unfold after, applyNext. rewrite Hpop, Hexec. cbv zeta.
      fold st'. simpl in Hcond |- *. by rewrite Hcond. }
    split; [done|]. rewrite refresh_history. simpl.
    by rewrite <- app_assoc. }
  assert (Hno : ¬ (queue = [] ∨ "new_code" ∈ tags st') →
    after = Return tt st' ∧
    history st' = history st ++ [Applying next_optimization] ∧
    (∃ p q, oset.pop_first (optimizations_queue st') = Some (p, q)) ∧
    ∀ fuel, optimizationLoop execute (S fuel) tree st
            = optimizationLoop execute fuel tree st').
  { intros Hcond. rewrite <- refresh_condition in Hcond.
    apply not_true_is_false in Hcond.
    assert (after = Return tt st') as Hafter.
    { unfold after, applyNext. rewrite Hpop, Hexec. cbv zeta.
      fold st'. simpl in Hcond |- *. by rewrite Hcond. }
    split_and!; [done|done| |].
    - destruct queue as [|p q]; [done|]. by exists p, q.
    - intros fuel. simpl. fold after. rewrite Hafter.
      destruct (optimizations_queue st); [done|]. done. }
  split_and!; [|done|done].
  destruct (decide (queue = [] ∨ "new_code" ∈ tags st')) as [Hc|Hc].
  - split; [done|intros _]. destruct (Hyes Hc) as [_ ->].
    rewrite drop_app_length. right. by left.
  - split; [|done]. intros Hin. destruct (Hno Hc) as [-> [Hh _]].
    simpl in Hin. rewrite drop_app_length in Hin.
    apply list_elem_of_singleton in Hin. done.
Qed.

(** C6.  Every rule of the table requires a tag other than new_code; so the
    refresh that follows the seeding with new_code alone enqueues nothing, and
    [optimizeTree] returns the tree it was given with the program state
    untouched, after that one refresh and without applying any pass. *)
Theorem only_new_code_runs_nothing (fuel : nat) tree w :
  Forall (λ r : rule Pass,
            ∃ tag, tag ∈ String.words (required r) ∧ tag ≠ "new_code")
         EligibilityTable ∧
  refreshOptimizationsFromTags oset.empty (Tags.add Tags.empty "new_code")
  = Return tt ([], ∅) ∧
  optimizeTree_run execute fuel tree w
  = Return tree (Scheduler w [] ∅ [Refreshed]) ∧
  optimizeTree execute fuel tree w = Return tree w.
Proof.
  assert (Hrun : optimizeTree_run execute fuel tree w
                 = Return tree (Scheduler w [] ∅ [Refreshed])).
  { unfold optimizeTree_run, refresh. simpl. rewrite seed_refresh.
    by destruct fuel. }
  split_and!; [apply table_needs_other_tag|apply seed_refresh|done|].
  unfold optimizeTree. by rewrite Hrun.
Qed.

Lemma loop_pass_raises (fuel : nat) tree st (next_optimization : Pass)
    (queue : oset.OrderedSet Pass) (e : exn) w :
  oset.pop_first (optimizations_queue st) = Some (next_optimization, queue) →
  execute next_optimization tree (sworld st) = Raise e w →
  optimizationLoop execute (S fuel) tree st
  = Raise e (Scheduler w queue (tags st)
                       (history st ++ [Applying next_optimization])).
Proof.
  intros Hpop Hexec. simpl. unfold applyNext. rewrite Hpop, Hexec.
  by destruct (optimizations_queue st).
Qed.

End SchedulerFacts.

(** ** The whole program driver *)

Section DriverFacts.
Context {Tree World : Type} `{Countable Tree}.
Variable getOtherModules : World → list Tree.
Variable optimizeTree : Tree → World → outcome World Tree.
Implicit Types (d : driver Tree World) (m : Tree) (ms others : list Tree).
Implicit Types (w : World) (t : list (step Tree)).

Lemma optimized_app t1 t2 : optimized (t1 ++ t2) = optimized t1 ++ optimized t2.
Proof.
  induction t1 as [|[|m] t1 IH]; simpl; [done|done|]. by rewrite IH.
Qed.

Lemma optimized_fmap ms : optimized (Optimizing <$> ms) = ms.
Proof. induction ms as [|m ms IH]; simpl; [done|]. by f_equal. Qed.

Lemma process_accounted m d :
  accounted d → m ∉ done_modules d →
  match process optimizeTree m d with
  | Return _ d' => accounted d'
  | r => NoDup (optimized (trace (final_state r)))
  end.
Proof.
  intros [Hnd Hdone] Hm. unfold process.
  assert (Hnd' : NoDup (optimized (trace d ++ [Optimizing m]))).
  { rewrite optimized_app. simpl. apply NoDup_app. split_and!; [done| |].
    - intros x Hx ->%list_elem_of_singleton. apply Hm. rewrite Hdone.
      by apply elem_of_list_to_set.
    - apply NoDup_singleton. }
  destruct (optimizeTree m (dworld d)) as [result w|e w|w]; simpl; [|done|done].
  split; [done|]. simpl. rewrite optimized_app, list_to_set_app_L, Hdone.
  simpl. rewrite union_empty_r_L. apply (comm_L (∪)).
Qed.

Lemma sweep_accounted others (finished : bool) d :
  accounted d →
  match sweep optimizeTree others finished d with
  | Return _ d' => accounted d'
  | r => NoDup (optimized (trace (final_state r)))
  end.
Proof.
  revert finished d. induction others as [|m others IH]; intros f d Hd; simpl.
  - done.
  - destruct (decide (m ∈ done_modules d)) as [Hin|Hin]; [by apply IH|].
    pose proof (process_accounted m d Hd Hin) as Hp.
    destruct (process optimizeTree m d) as [result d'|e d'|d']; [|done|done].
    by apply IH.
Qed.

Lemma sweeps_accounted (fuel : nat) d :
  accounted d →
  match sweeps getOtherModules optimizeTree fuel d with
  | Return _ d' => accounted d'
  | r => NoDup (optimized (trace (final_state r)))
  end.
Proof.
  revert d. induction fuel as [|fuel IH]; intros d Hd; simpl.
  - apply Hd.
  - set (d0 := Driver (dworld d) (done_modules d) (trace d ++ [SweepBegins])).
    assert (Hd0 : accounted d0).
    { destruct Hd as [Hnd Hdone]. unfold accounted, d0. simpl.
      rewrite optimized_app. simpl. by rewrite app_nil_r. }
    pose proof (sweep_accounted (getOtherModules (dworld d)) true d0 Hd0) as Hs.
    destruct (sweep optimizeTree _ true d0) as [f d'|e d'|d']; [|done|done].
    destruct f; [done|]. by apply IH.
Qed.

Lemma sweep_finished others (finished finished' : bool) d d' :
  sweep optimizeTree others finished d = Return finished' d' →
  finished' = true →
  finished = true ∧ d' = d ∧ ∀ m, m ∈ others → m ∈ done_modules d.
Proof.
  revert finished d. induction others as [|m others IH]; intros f d; simpl.
  - intros [= -> ->] ->. split_and!; [done|done|]. by intros m Hm%elem_of_nil.
  - destruct (decide (m ∈ done_modules d)) as [Hin|Hin].
    + intros Hs Hf. destruct (IH _ _ Hs Hf) as (-> & -> & Hall).
      split_and!; [done|done|].
      intros x [->|Hx]%elem_of_cons; [done|by apply Hall].
    + destruct (process optimizeTree m d) as [result d1|e d1|d1]; [|done|done].
      intros Hs Hf. by destruct (IH _ _ Hs Hf) as ([=] & _).
Qed.

Lemma sweeps_cover (fuel : nat) d d' :
  sweeps getOtherModules optimizeTree fuel d = Return tt d' →
  ∀ m, m ∈ getOtherModules (dworld d') → m ∈ done_modules d'.
Proof.
  revert d. induction fuel as [|fuel IH]; intros d; simpl; [done|].
  set (d0 := Driver (dworld d) (done_modules d) (trace d ++ [SweepBegins])).
  destruct (sweep optimizeTree _ true d0) as [f d1|e d1|d1] eqn:Hs; [|done|done].
  destruct f; [|by apply IH].
  intros [= <-]. destruct (sweep_finished _ _ _ _ _ Hs eq_refl) as (_ & -> & Hall).
  apply Hall.
Qed.

Lemma reachable_step m w (result : Tree) w' w'' :
  reachable optimizeTree w w' → optimizeTree m w' = Return result w'' →
  reachable optimizeTree w w''.
Proof. intros Hw Hm. eapply rtc_r; [exact Hw|]. by exists m, result. Qed.

Lemma sweep_returns others (finished : bool) d :
  (∀ m w, m ∈ others → reachable optimizeTree (dworld d) w →
          ∃ result w', optimizeTree m w = Return result w') →
  ∃ ms d',
    sweep optimizeTree others finished d
    = Return (finished && bool_decide (ms = [])) d' ∧
    trace d' = trace d ++ (Optimizing <$> ms) ∧
    done_modules d' = list_to_set ms ∪ done_modules d ∧
    reachable optimizeTree (dworld d) (dworld d') ∧
    (ms = [] → d' = d) ∧
    Forall (λ m, m ∈ others ∧ m ∉ done_modules d) ms.
Proof.
  revert finished d.
  induction others as [|m others IH]; intros f d Hret; simpl.
  - exists [], d. rewrite andb_true_r, app_nil_r.
    split_and!; try done.
    change (list_to_set []) with (∅ : gset Tree). by rewrite union_empty_l_L.
  - destruct (decide (m ∈ done_modules d)) as [Hin|Hin].
    + destruct (IH f d) as (ms & d' & Hs & Ht & Hd & Hr & He & Hms).
      { intros x v Hx. apply Hret. by right. }
      exists ms, d'. split_and!; try done.
      eapply Forall_impl; [exact Hms|]. intros x [Hx Hnx]. split; [by right|done].
    + destruct (Hret m (dworld d)) as (result & w' & Hm);
        [by left|apply rtc_refl|].
      unfold process. rewrite Hm.
      set (d1 := Driver w' ({[m]} ∪ done_modules d) (trace d ++ [Optimizing m])).
      assert (Hstep : reachable optimizeTree (dworld d) (dworld d1)).
      { eapply reachable_step; [apply rtc_refl|exact Hm]. }
      destruct (IH false d1) as (ms & d' & Hs & Ht & Hd & Hr & He & Hms).
      { intros x v Hx Hv. apply Hret; [by right|by etrans]. }
      exists (m :: ms), d'. rewrite Hs, andb_false_r. simpl.
      split_and!; try done.
      * rewrite Ht. simpl. by rewrite <- app_assoc.
      * rewrite Hd. simpl. by rewrite (assoc_L (∪)), (comm_L (∪) _ {[m]}).
      * by etrans.
      * apply Forall_cons. split; [split; [by left|done]|].
        eapply Forall_impl; [exact Hms|]. intros x [Hx Hnx].
        split; [by right|]. intros Hxd. apply Hnx. simpl.
        apply elem_of_union. by right.
Qed.

Lemma sweeps_terminate (universe : gset Tree) (k : nat) d :
  (∀ m w, m ∈ universe → reachable optimizeTree (dworld d) w →
          ∃ result w', optimizeTree m w = Return result w') →
  (∀ w, reachable optimizeTree (dworld d) w →
        ∀ m, m ∈ getOtherModules w → m ∈ universe) →
  (size (universe ∖ done_modules d) ≤ k)%nat →
  ∃ progress d',
    (∀ fuel, (k < fuel)%nat → sweeps getOtherModules optimizeTree fuel d = Return tt d') ∧
    Forall (λ ms, ms ≠ []) progress ∧
    trace d' = trace d ++ concat (sweep_trace <$> progress) ++ [SweepBegins].
Proof.
  revert d. induction k as [|k IH]; intros d Hret Hbound Hsize.
  all: set (d0 := Driver (dworld d) (done_modules d) (trace d ++ [SweepBegins])).
  all: destruct (sweep_returns (getOtherModules (dworld d)) true d0)
         as (ms & d1 & Hs & Ht & Hd & Hr & He & Hms);
         [intros x v Hx Hv; apply Hret;
          [eapply Hbound; [apply rtc_refl|exact Hx]|exact Hv]|].
  all: destruct ms as [|m ms].
  - exists [], d0. rewrite (He eq_refl) in Hs. split_and!; [|done|done].
    intros [|fuel] Hfuel; [lia|]. simpl. fold d0. by rewrite Hs.
  - exfalso. apply Forall_cons in Hms as [[Hm Hnm] _].
    assert (m ∈ universe ∖ done_modules d) as Hin.
    { apply elem_of_difference. split; [|done]. eapply Hbound; [apply rtc_refl|done]. }
    assert (universe ∖ done_modules d ≡ ∅) as Hempty.
    { apply size_empty_iff. lia. }
    apply Hempty in Hin. by apply not_elem_of_empty in Hin.
  - exists [], d0. rewrite (He eq_refl) in Hs. split_and!; [|done|done].
    intros [|fuel] Hfuel; [lia|]. simpl. fold d0. by rewrite Hs.
  - pose proof Hms as Hall. apply Forall_cons in Hms as [[Hm Hnm] _].
    assert (m ∈ universe) as Hmu.
    { eapply Hbound; [apply rtc_refl|done]. }
    destruct (IH d1) as (progress & d' & Hrun & Hprog & Htrace).
    + intros x v Hx Hv. apply Hret; [done|by etrans].
    + intros v Hv. apply Hbound. by etrans.
    + assert (universe ∖ done_modules d1 ⊂ universe ∖ done_modules d) as Hsub.
      { rewrite Hd. simpl. split.
        - intros x [Hx Hnx]%elem_of_difference. apply elem_of_difference.
          split; [done|]. intros Hxd. apply Hnx, elem_of_union. by right.
        - intros Hincl. assert (m ∈ universe ∖ done_modules d) as Hin
            by (by apply elem_of_difference).
          apply Hincl, elem_of_difference in Hin as [_ Hin]. apply Hin.
          do 2 (apply elem_of_union; left). by apply elem_of_singleton. }
      apply subset_size in Hsub. lia.
    + exists ((m :: ms) :: progress), d'. split_and!.
      * intros [|fuel] Hfuel; [lia|]. simpl. fold d0. rewrite Hs. simpl.
        apply Hrun. lia.
      * by apply Forall_cons.
      * rewrite Htrace, Ht. simpl. rewrite <- !app_assoc. done.
Qed.

Lemma process_extends m d :
  trace (final_state (process optimizeTree m d)) = trace d ++ [Optimizing m].
Proof. unfold process. by destruct (optimizeTree m (dworld d)). Qed.

Lemma sweep_extends others (finished : bool) d :
  ∃ t, trace (final_state (sweep optimizeTree others finished d)) = trace d ++ t.
Proof.
  revert finished d. induction others as [|m others IH]; intros f d; simpl.
  - exists []. by rewrite app_nil_r.
  - destruct (decide (m ∈ done_modules d)); [apply IH|].
    pose proof (process_extends m d) as Hp.
    destruct (process optimizeTree m d) as [result d1|e d1|d1]; simpl in *;
      [|by eexists|by eexists].
    destruct (IH false d1) as [t Ht]. rewrite Ht, Hp, <- app_assoc. by eexists.
Qed.

Lemma sweeps_extends (fuel : nat) d :
  ∃ t, trace (final_state (sweeps getOtherModules optimizeTree fuel d))
       = trace d ++ t.
Proof.
  revert d. induction fuel as [|fuel IH]; intros d; simpl.
  - exists []. by rewrite app_nil_r.
  - set (d0 := Driver (dworld d) (done_modules d) (trace d ++ [SweepBegins])).
    destruct (sweep_extends (getOtherModules (dworld d)) true d0) as [t Ht].
    simpl in Ht. rewrite <- app_assoc in Ht.
    destruct (sweep optimizeTree _ true d0) as [f d1|e d1|d1]; simpl in *;
      [|by eexists|by eexists].
    destruct f; [by eexists|].
    destruct (IH d1) as [t' Ht']. rewrite Ht', Ht, <- app_assoc. by eexists.
Qed.

Lemma whole_starts (fuel : nat) (main_module : Tree) w :
  ∃ t, trace (final_state
                (optimizeWhole getOtherModules optimizeTree fuel main_module w))
       = Optimizing main_module :: t.
Proof.
  unfold optimizeWhole.
  pose proof (process_extends main_module (Driver w ∅ [])) as Hp.
  destruct (process optimizeTree main_module _) as [result d1|e d1|d1];
    simpl in *; [|by eexists|by eexists].
  destruct (sweeps_extends fuel d1) as [t Ht]. rewrite Hp in Ht.
  destruct (sweeps getOtherModules optimizeTree fuel d1) as [[] d2|e d2|d2];
    simpl in *; by eexists.
Qed.

Lemma whole_accounted (fuel : nat) (main_module : Tree) w :
  match optimizeWhole getOtherModules optimizeTree fuel main_module w with
  | Return _ d => accounted d
  | r => NoDup (optimized (trace (final_state r)))
  end.
Proof.
  unfold optimizeWhole.
  assert (Hstart : accounted (Driver w (∅ : gset Tree) [])).
  { split; [apply NoDup_nil_2|done]. }
  pose proof (process_accounted main_module _ Hstart (not_elem_of_empty _)) as Hp.
  destruct (process optimizeTree main_module _) as [result d1|e d1|d1];
    [|done|done].
  pose proof (sweeps_accounted fuel d1 Hp) as Hs.
  by destruct (sweeps getOtherModules optimizeTree fuel d1) as [[] d2|e d2|d2].
Qed.

(** C10.  In one run of the driver, however it ends, [optimizeTree] is called
    at most once for a module: the calls, in order, hold no module twice and
    begin with the main module; and when the run returns, [done_modules] is
    exactly the set of the modules called for. *)
Theorem optimized_at_most_once (fuel : nat) (main_module : Tree) w :
  let r := optimizeWhole getOtherModules optimizeTree fuel main_module w in
  NoDup (optimized (trace (final_state r))) ∧
  head (optimized (trace (final_state r))) = Some main_module ∧
  match r with
  | Return _ d => done_modules d = list_to_set (optimized (trace d))
  | _ => True
  end.
Proof.
  intros r. subst r.
  destruct (whole_starts fuel main_module w) as [t Ht].
  pose proof (whole_accounted fuel main_module w) as Hacc.
  destruct (optimizeWhole getOtherModules optimizeTree fuel main_module w)
    as [result d|e d|d]; simpl in *.
  - destruct Hacc as [Hnd Hdone]. split_and!; [done| |done]. by rewrite Ht.
  - split_and!; [done| |done]. by rewrite Ht.
  - split_and!; [done| |done]. by rewrite Ht.
Qed.

(** C2.  When the driver stops, every module of the registry as it then is
    has been handed to [optimizeTree] and is marked done, whenever it was
    registered, be it while another module was being optimized in the middle
    of a sweep; and so has the main module. *)
Theorem registry_covered (fuel : nat) (main_module result : Tree) w d :
  optimizeWhole getOtherModules optimizeTree fuel main_module w = Return result d →
  (∀ m, m ∈ getOtherModules (dworld d) →
        m ∈ done_modules d ∧ m ∈ optimized (trace d)) ∧
  main_module ∈ done_modules d.
Proof.
  intros Hrun.
  pose proof (whole_accounted fuel main_module w) as Hacc.
  destruct (whole_starts fuel main_module w) as [t Ht].
  rewrite Hrun in Hacc, Ht. simpl in Ht. destruct Hacc as [_ Hdone].
  assert (Hcover : ∀ m, m ∈ getOtherModules (dworld d) → m ∈ done_modules d).
  { unfold optimizeWhole in Hrun.
    destruct (process optimizeTree main_module _) as [r1 d1|e d1|d1];
      [|done|done].
    destruct (sweeps getOtherModules optimizeTree fuel d1)
      as [[] d2|e d2|d2] eqn:Hs; [|done|done].
    injection Hrun as -> ->. by eapply sweeps_cover. }
  split.
  - intros m Hm. split; [by apply Hcover|].
    apply Hcover in Hm. rewrite Hdone in Hm. by apply elem_of_list_to_set in Hm.
  - rewrite Hdone, Ht. simpl. apply elem_of_union. left. by apply elem_of_singleton.
Qed.

Lemma sweep_skips_done others (finished : bool) d :
  (∀ m, m ∈ others → m ∈ done_modules d) →
  sweep optimizeTree others finished d = Return finished d.
Proof.
  induction others as [|m others IH]; intros Hall; simpl; [done|].
  rewrite decide_True by (apply Hall; by left).
  apply IH. intros x Hx. apply Hall. by right.
Qed.

(** C3.  Sweep termination.  If the registry stays within a finite set of
    modules, so that it stops growing once these are done, and the scheduler
    returns for the main module and for these, then the driver terminates,
    [size universe + 1] iterations being enough; its sweeps are sweeps that
    each optimized some module, followed by exactly one final sweep that
    optimized none.  And in whatever state the loop of the driver stands, once
    all modules of the registry are marked done it makes exactly one sweep,
    which calls [optimizeTree] for no module and changes nothing, and stops. *)
Theorem sweep_termination (universe : gset Tree) (main_module : Tree) w :
  (∀ m w', m = main_module ∨ m ∈ universe → reachable optimizeTree w w' →
           ∃ result w'', optimizeTree m w' = Return result w'') →
  (∀ w', reachable optimizeTree w w' →
         ∀ m, m ∈ getOtherModules w' → m ∈ universe) →
  (∃ result d progress,
     (∀ fuel, (size universe < fuel)%nat →
        optimizeWhole getOtherModules optimizeTree fuel main_module w
        = Return result d) ∧
     Forall (λ ms, ms ≠ []) progress ∧
     trace d = Optimizing main_module
               :: concat (sweep_trace <$> progress) ++ [SweepBegins]) ∧
  (∀ d (fuel : nat),
     (∀ m, m ∈ getOtherModules (dworld d) → m ∈ done_modules d) →
     sweeps getOtherModules optimizeTree (S fuel) d
     = Return tt (Driver (dworld d) (done_modules d)
                         (trace d ++ [SweepBegins]))).
Proof.
  intros Hret Hbound. split; [|intros d0 fuel Hall; simpl;
                               by rewrite sweep_skips_done].
  destruct (Hret main_module w) as (result & w1 & Hmain);
    [by left|apply rtc_refl|].
  set (d1 := Driver w1 ({[main_module]} ∪ ∅ : gset Tree) [Optimizing main_module]).
  assert (Hstep : reachable optimizeTree w (dworld d1)).
  { eapply reachable_step; [apply rtc_refl|exact Hmain]. }
  destruct (sweeps_terminate universe (size universe) d1)
    as (progress & d & Hrun & Hprog & Htrace).
  - intros m v Hm Hv. apply Hret; [by right|by etrans].
  - intros v Hv. apply Hbound. by etrans.
  - apply subseteq_size. intros x [Hx _]%elem_of_difference. done.
  - exists result, d, progress. split_and!; [|done|done].
    intros fuel Hfuel. unfold optimizeWhole, process. simpl.
    rewrite Hmain. fold d1. by rewrite (Hrun fuel Hfuel).
Qed.

End DriverFacts.

(** ** Failure of a pass *)

(** C8.  A pass that raises while it executes ends the scheduler loop with
    that exception: the loop returns it at once, the history ends with the
    failing pass, nothing is retried, refreshed or applied afterwards.  The
    driver does not catch it either: when the scheduler call for a pending
    module raises, the sweep and the whole loop of the driver end with the same
    exception, their trace ends with that module, which is not marked done,
    and the modules after it are not optimized. *)
Theorem pass_failure_is_fatal {Pass Tree World : Type} `{EqDecision Pass}
    `{Countable Tree} `{Visitors Pass} `{Options}
    (execute : Pass → Tree → World → outcome World (list string))
    (getOtherModules : World → list Tree)
    (optimizeTree : Tree → World → outcome World Tree)
    (fuel : nat) (tree : Tree) (st : scheduler Pass World)
    (next_optimization : Pass) (queue : oset.OrderedSet Pass)
    (e : exn) (w w' : World)
    (d : driver Tree World) (other_module : Tree) (skipped others : list Tree) :
  oset.pop_first (optimizations_queue st) = Some (next_optimization, queue) →
  execute next_optimization tree (sworld st) = Raise e w →
  getOtherModules (dworld d) = skipped ++ other_module :: others →
  (∀ m, m ∈ skipped → m ∈ done_modules d) →
  other_module ∉ done_modules d →
  optimizeTree other_module (dworld d) = Raise e w' →
  optimizationLoop execute (S fuel) tree st
  = Raise e (Scheduler w queue (tags st)
                       (history st ++ [Applying next_optimization])) ∧
  sweeps getOtherModules optimizeTree (S fuel) d
  = Raise e (Driver w' (done_modules d)
                    (trace d ++ [SweepBegins; Optimizing other_module])) ∧
  (∀ w0, optimizeTree tree w0 = Raise e w →
         optimizeWhole getOtherModules optimizeTree fuel tree w0
         = Raise e (Driver w ∅ [Optimizing tree])).
Proof.
  intros Hpop Hexec Hreg Hskipped Hpending Hraise. split_and!.
  - by apply loop_pass_raises.
  - simpl. rewrite Hreg.
    set (d0 := Driver (dworld d) (done_modules d) (trace d ++ [SweepBegins])).
    assert (Hskip : ∀ ms (f : bool) rest,
              (∀ m, m ∈ ms → m ∈ done_modules d0) →
              sweep optimizeTree (ms ++ rest) f d0 = sweep optimizeTree rest f d0).
    { induction ms as [|m ms IH]; intros f rest Hms; simpl; [done|].
      rewrite decide_True by (apply Hms; by left).
      apply IH. intros x Hx. apply Hms. by right. }
    rewrite Hskip by done. simpl.
    rewrite decide_False by done. unfold process. simpl. rewrite Hraise.
    by rewrite <- app_assoc.
  - intros w0 Hmain. unfold optimizeWhole, process. simpl. by rewrite Hmain.
Qed.

(** ** The properties on concrete runs *)

Lemma refresh_iff_drained_or_new_code_witness :
  let st := Scheduler [1] ["ReplaceUnpackingVisitor"; "OptimizeExecVisitor"]
                      ∅ [Refreshed] in
  let st' := executed st "ReplaceUnpackingVisitor" ["OptimizeExecVisitor"]
                      ["new_code"; "new_constant"] [1] in
  oset.pop_first (optimizations_queue st)
  = Some ("ReplaceUnpackingVisitor", ["OptimizeExecVisitor"]) ∧
  demo_execute "ReplaceUnpackingVisitor" 0 (sworld st)
  = Return ["new_code"; "new_constant"] [1] ∧
  (Refreshed ∈ drop (length (history st))
     (history (final_state
        (@applyNext string nat (list nat) _ named_visitors default_options
                    demo_execute 0 st))) ↔
   ["OptimizeExecVisitor"] = [] ∨ "new_code" ∈ tags st').
Proof.
  intros st st'.
  exact (conj eq_refl (conj eq_refl (proj1
    (@refresh_iff_drained_or_new_code string nat (list nat) _ named_visitors
       default_options demo_execute 0 st "ReplaceUnpackingVisitor"
       ["OptimizeExecVisitor"] ["new_code"; "new_constant"] [1]
       eq_refl eq_refl)))).
Defined.

Lemma registry_covered_witness :
  let d := Driver [1; 2] ({[0; 1; 2]} : gset nat)
                  [Optimizing 0; SweepBegins; Optimizing 1;
                   SweepBegins; Optimizing 2; SweepBegins] in
  optimizeWhole demo_getOtherModules demo_optimizeTree 3 0 [] = Return 0 d ∧
  (∀ m, m ∈ demo_getOtherModules (dworld d) →
        m ∈ done_modules d ∧ m ∈ optimized (trace d)) ∧
  0 ∈ done_modules d.
Proof.
  intros d.
  assert (Hrun : optimizeWhole demo_getOtherModules demo_optimizeTree 3 0 []
                 = Return 0 d) by (vm_compute; reflexivity).
  exact (conj Hrun
    (registry_covered demo_getOtherModules demo_optimizeTree 3 0 0 [] d Hrun)).
Defined.

Lemma demo_reachable (w : list nat) :
  reachable demo_optimizeTree [] w → w = [] ∨ w = [1] ∨ w = [1; 2].
Proof.
  unfold reachable. revert w.
  apply (rtc_ind_r (λ w, w = [] ∨ w = [1] ∨ w = [1; 2])); [by left|].
  intros v v' Hv (m & t & Hstep) IH.
  destruct m as [|[|[|[|m]]]]; simpl in Hstep; try discriminate;
    injection Hstep as _ <-; tauto.
Qed.

Lemma sweep_termination_witness :
  (∀ m w', m = 0 ∨ m ∈ ({[1; 2]} : gset nat) →
           reachable demo_optimizeTree [] w' →
           ∃ result w'', demo_optimizeTree m w' = Return result w'') ∧
  (∀ w', reachable demo_optimizeTree [] w' →
         ∀ m, m ∈ demo_getOtherModules w' → m ∈ ({[1; 2]} : gset nat)) ∧
  ∃ result d progress,
    (∀ fuel, (size ({[1; 2]} : gset nat) < fuel)%nat →
       optimizeWhole demo_getOtherModules demo_optimizeTree fuel 0 []
       = Return result d) ∧
    Forall (λ ms, ms ≠ []) progress ∧
    trace d = Optimizing 0 :: concat (sweep_trace <$> progress) ++ [SweepBegins].
Proof.
  assert (Hret : ∀ m w', m = 0 ∨ m ∈ ({[1; 2]} : gset nat) →
            reachable demo_optimizeTree [] w' →
            ∃ result w'', demo_optimizeTree m w' = Return result w'').
  { intros m w' Hm _.
    assert (m = 0 ∨ m = 1 ∨ m = 2) as [->|[->| ->]]
      by (rewrite elem_of_union, !elem_of_singleton in Hm; tauto);
      simpl; by eexists _, _. }
  assert (Hbound : ∀ w', reachable demo_optimizeTree [] w' →
            ∀ m, m ∈ demo_getOtherModules w' → m ∈ ({[1; 2]} : gset nat)).
  { intros w' [->|[->| ->]]%demo_reachable m Hm; unfold demo_getOtherModules in Hm.
    - by apply elem_of_nil in Hm.
    - apply list_elem_of_singleton in Hm as ->.
      apply elem_of_union. left. by apply elem_of_singleton.
    - apply elem_of_cons in Hm as [->|Hm%list_elem_of_singleton].
      + apply elem_of_union. left. by apply elem_of_singleton.
      + subst m. apply elem_of_union. right. by apply elem_of_singleton. }
  exact (conj Hret (conj Hbound (proj1
    (sweep_termination demo_getOtherModules demo_optimizeTree
       {[1; 2]} 0 [] Hret Hbound)))).
Defined.

Lemma pass_failure_is_fatal_witness :
  let st := Scheduler [1; 3; 2] ["OptimizeRaisesVisitor"; "OptimizeExecVisitor"]
                      ∅ [Refreshed] in
  let d := Driver [1; 3; 2] ({[0; 1]} : gset nat)
                  [Optimizing 0; SweepBegins; Optimizing 1] in
  let e := PassFailure "raise without effect" in
  demo_execute "OptimizeRaisesVisitor" 3 (sworld st) = Raise e [1; 3; 2] ∧
  demo_optimizeTree 3 (dworld d) = Raise e [1; 3; 2] ∧
  @optimizationLoop string nat (list nat) _ named_visitors default_options
    demo_execute 1 3 st
  = Raise e (Scheduler [1; 3; 2] ["OptimizeExecVisitor"] ∅
                       [Refreshed; Applying "OptimizeRaisesVisitor"]) ∧
  sweeps demo_getOtherModules demo_optimizeTree 1 d
  = Raise e (Driver [1; 3; 2] ({[0; 1]} : gset nat)
                    [Optimizing 0; SweepBegins; Optimizing 1;
                     SweepBegins; Optimizing 3]).
Proof.
  intros st d e.
  assert (Hskipped : ∀ m, m ∈ [1] → m ∈ done_modules d).
  { intros m ->%list_elem_of_singleton. apply (bool_decide_unpack _).
    vm_compute. exact I. }
  assert (Hpending : 3 ∉ done_modules d).
  { apply (bool_decide_unpack _). vm_compute. exact I. }
  pose proof (@pass_failure_is_fatal string nat (list nat) _ _ _
                named_visitors default_options demo_execute
                demo_getOtherModules demo_optimizeTree 0 3 st
                "OptimizeRaisesVisitor" ["OptimizeExecVisitor"] e
                [1; 3; 2] [1; 3; 2] d 3 [1] [2]
                eq_refl eq_refl eq_refl Hskipped Hpending eq_refl)
    as (Hloop & Hsweeps & _).
  exact (conj eq_refl (conj eq_refl (conj Hloop Hsweeps))).
Defined.

Lemma refresh_deterministic_witness :
  let tags : Tags.TagSet := {["new_code"; "new_constant"]} in
  let q1 : oset.OrderedSet string := [] in
  let q2 : oset.OrderedSet string := ["ReplaceUnpackingVisitor"] in
  let r1 := @refreshOptimizationsFromTags string _ named_visitors
              default_options q1 tags in
  let r2 := @refreshOptimizationsFromTags string _ named_visitors
              default_options q2 tags in
  ∃ order : list string,
    NoDup order ∧
    (final_state r1).1 = q1 ++ filter (λ p, p ∉ q1) order ∧
    (final_state r2).1 = q2 ++ filter (λ p, p ∉ q2) order ∧
    (final_state r1).2 = (final_state r2).2 ∧
    (∀ e, (∃ s, r1 = Raise e s) ↔ (∃ s, r2 = Raise e s)) ∧
    (q1 = q2 → r1 = r2).
Proof.
  exact (@refresh_deterministic string _ named_visitors default_options
           {["new_code"; "new_constant"]} [] ["ReplaceUnpackingVisitor"]).
Defined.

(** ** More on refresh *)

Section RefreshEffect.
Context {Pass : Type} `{EqDecision Pass} `{Visitors Pass} `{Options}.
Implicit Types (q : oset.OrderedSet Pass) (tags : Tags.TagSet) (p : Pass).

Lemma elem_of_inserted q (xs : list Pass) p :
  p ∈ inserted q xs ↔ p ∈ xs ∧ p ∉ q.
Proof.
  revert q. induction xs as [|x xs IH]; intros q; simpl.
  - split; [by intros ?%elem_of_nil|by intros [?%elem_of_nil _]].
  - destruct (decide (x ∈ q)) as [Hx|Hx].
    + rewrite IH, elem_of_cons. split; [tauto|].
      intros [[->|Hp] Hq]; [done|tauto].
    + rewrite !elem_of_cons, IH, elem_of_app, list_elem_of_singleton.
      split; [intros [->|[Hp Hq]]; tauto|].
      intros [[->|Hp] Hq]; [by left|].
      destruct (decide (p = x)) as [->|Hne]; [by left|right; tauto].
Qed.

Lemma elem_of_nominated (rules : list (rule Pass)) tags p :
  unbound_hit rules tags = None →
  p ∈ nominated rules tags ↔
  ∃ r ps, r ∈ rules ∧ fires tags r = true ∧ target r = Passes ps ∧ p ∈ ps.
Proof.
  induction rules as [|r rules IH]; simpl.
  - intros _. split; [by intros ?%elem_of_nil|].
    by intros (r & ps & ?%elem_of_nil & _).
  - destruct (target r) as [ps|name] eqn:Ht.
    + intros Hu. rewrite elem_of_app, (IH Hu). split.
      * intros [Hp|(r' & ps' & Hr' & Hf & Ht' & Hp)].
        -- destruct (fires tags r) eqn:Hf; [|by apply elem_of_nil in Hp].
           exists r, ps. split_and!; [by left|done|done|done].
        -- exists r', ps'. split_and!; [by right|done|done|done].
      * intros (r' & ps' & [->|Hr']%elem_of_cons & Hf & Ht' & Hp).
        -- left. rewrite Hf. congruence.
        -- right. by exists r', ps'.
    + destruct (fires tags r) eqn:Hf; [done|]. intros Hu. rewrite (IH Hu).
      split.
      * intros (r' & ps' & Hr' & Hf' & Ht' & Hp).
        exists r', ps'. split_and!; [by right|done|done|done].
      * intros (r' & ps' & [->|Hr']%elem_of_cons & Hf' & Ht' & Hp);
          [congruence|]. by exists r', ps'.
Qed.

Lemma refresh_return_effect q tags q' tags' :
  refreshOptimizationsFromTags q tags = Return tt (q', tags') →
  tags' = ∅ ∧
  (∃ new, q' = q ++ new ∧ NoDup new ∧ ∀ p, p ∈ new → p ∉ q) ∧
  ∀ p, p ∈ q' ↔
       p ∈ q ∨ ∃ r ps, r ∈ EligibilityTable ∧ fires tags r = true ∧
                       target r = Passes ps ∧ p ∈ ps.
Proof.
  rewrite refresh_outcome.
  destruct (unbound_hit EligibilityTable tags) as [name|] eqn:Hu; [done|].
  intros [= <- <-].
  set (new := inserted q (nominated EligibilityTable tags)).
  split_and!; [done| |].
  - exists new. split_and!; [done|apply inserted_NoDup|].
    intros p. apply inserted_fresh.
  - intros p. rewrite elem_of_app. unfold new.
    rewrite elem_of_inserted, (elem_of_nominated _ _ _ Hu).
    destruct (decide (p ∈ q)); tauto.
Qed.

(** X1.  What a refresh that returns has done: the tag set is empty, the
    passes that were queued are still there, in front and in their order,
    nothing is queued twice, and a pass is queued afterwards iff it was queued
    before or some rule of the table that fires on the tags names it. *)
Theorem refresh_queues_firing_rules q tags q' tags' :
  refreshOptimizationsFromTags q tags = Return tt (q', tags') →
  tags' = ∅ ∧
  (∃ new, q' = q ++ new ∧ NoDup new ∧ ∀ p, p ∈ new → p ∉ q) ∧
  (NoDup q → NoDup q') ∧
  ∀ p, p ∈ q' ↔
       p ∈ q ∨ ∃ r ps, r ∈ EligibilityTable ∧ fires tags r = true ∧
                       target r = Passes ps ∧ p ∈ ps.
Proof.
  intros (Ht & (new & -> & Hnd & Hfresh) & Hin)%refresh_return_effect.
  split_and!; [done|by exists new| |done].
  intros Hq. apply NoDup_app. split_and!; [done| |done].
  intros p Hp Hn. by apply (Hfresh p).
Qed.

Lemma check_four tags :
  Tags.check tags "new_code new_statements new_constant new_builtin" = true ↔
  "new_code" ∈ tags ∧ "new_statements" ∈ tags ∧
  "new_constant" ∈ tags ∧ "new_builtin" ∈ tags.
Proof.
  unfold Tags.check.
  change (String.words "new_code new_statements new_constant new_builtin")
    with ["new_code"; "new_statements"; "new_constant"; "new_builtin"].
  simpl. rewrite !andb_true_iff, !bool_decide_eq_true. tauto.
Qed.

Lemma refresh_cases q tags :
  (use_propagation
   && Tags.check tags "new_code new_statements new_constant new_builtin" = true ∧
   ∃ q', refreshOptimizationsFromTags q tags
         = Raise (NameError "ValuePropagationVisitor") (q', tags)) ∨
  (use_propagation
   && Tags.check tags "new_code new_statements new_constant new_builtin" = false ∧
   ∃ q', refreshOptimizationsFromTags q tags = Return tt (q', ∅)).
Proof.
  rewrite refresh_outcome, unbound_hit_table.
  generalize (q ++ inserted q (nominated EligibilityTable tags)). intros q'.
  destruct (use_propagation && Tags.check tags _);
    [left|right]; (split; [reflexivity|by exists q']).
Qed.

(** X2.  A refresh raises exactly when value propagation is on and the tags
    new_code, new_statements, new_constant and new_builtin are all present,
    and then it is the [NameError] of [ValuePropagationVisitor] with the tag
    set left as it was; in every other case it returns with an empty tag
    set. *)
Theorem refresh_raises_iff q tags :
  ((∃ e s, refreshOptimizationsFromTags q tags = Raise e s) ↔
   use_propagation = true ∧
   "new_code" ∈ tags ∧ "new_statements" ∈ tags ∧
   "new_constant" ∈ tags ∧ "new_builtin" ∈ tags) ∧
  (∀ e s, refreshOptimizationsFromTags q tags = Raise e s →
          e = NameError "ValuePropagationVisitor" ∧ s.2 = tags) ∧
  ((∀ e s, refreshOptimizationsFromTags q tags ≠ Raise e s) →
   ∃ q', refreshOptimizationsFromTags q tags = Return tt (q', ∅)).
Proof.
  rewrite <- check_four, <- andb_true_iff.
  destruct (refresh_cases q tags) as [[Hc [q' Hr]]|[Hc [q' Hr]]]; rewrite Hr, Hc.
  - split_and!.
    + split; [reflexivity|]. intros _. by exists (NameError "ValuePropagationVisitor"), (q', tags).
    + intros e s Heq. injection Heq as <- <-. by split.
    + intros Hno. by destruct (Hno _ _ eq_refl).
  - split_and!.
    + split; [|discriminate]. intros (e & s & Heq). discriminate.
    + intros e s Heq. discriminate.
    + intros _. by exists q'.
Qed.

(** X3.  More signals never schedule fewer passes: when the tag set grows, a
    refresh that returns queues every pass the refresh on the smaller tag set
    queued. *)
Theorem refresh_monotone q tags1 tags2 q1 q2 (t1 t2 : Tags.TagSet) :
  tags1 ⊆ tags2 →
  refreshOptimizationsFromTags q tags1 = Return tt (q1, t1) →
  refreshOptimizationsFromTags q tags2 = Return tt (q2, t2) →
  ∀ p, p ∈ q1 → p ∈ q2.
Proof.
  intros Hsub H1 H2 p.
  destruct (refresh_return_effect _ _ _ _ H1) as (_ & _ & Hq1).
  destruct (refresh_return_effect _ _ _ _ H2) as (_ & _ & Hq2).
  rewrite Hq1, Hq2. intros [Hp|(r & ps & Hr & Hf & Ht & Hp)]; [by left|].
  right. exists r, ps. split_and!; try done.
  unfold fires in *. apply andb_true_iff in Hf as [-> Hc]. simpl.
  rewrite check_conjunction in Hc |- *. intros tag Htag. apply Hsub. by apply Hc.
Qed.

End RefreshEffect.

(** ** More on the scheduler loop *)

Section LoopFacts.
Context {Pass Tree World : Type} `{EqDecision Pass}.
Context `{Visitors Pass} `{Options}.
Variable execute : Pass → Tree → World → outcome World (list string).
Implicit Types (st : scheduler Pass World) (tree : Tree) (w : World).

#[local] Arguments refreshOptimizationsFromTags : simpl never.
#[local] Arguments refresh : simpl never.

Lemma refresh_returns st st' :
  refresh st = Return tt st' →
  tags st' = ∅ ∧ history st' = history st ++ [Refreshed] ∧
  sworld st' = sworld st.
Proof.
  unfold refresh.
  destruct (refreshOptimizationsFromTags _ _) as [[] [q t]|e [q t]|[q t]] eqn:Hr;
    [|discriminate|discriminate].
  intros Heq. injection Heq as <-. cbn [tags history sworld].
  by apply refresh_return_effect in Hr as (-> & _).
Qed.

Lemma refresh_raises st e st' :
  refresh st = Raise e st' →
  e = NameError "ValuePropagationVisitor" ∧ use_propagation = true.
Proof.
  unfold refresh.
  destruct (refresh_cases (optimizations_queue st) (tags st))
    as [[Hc [q' Hr]]|[Hc [q' Hr]]]; rewrite Hr; [|discriminate].
  intros Heq. injection Heq as <- _.
  apply andb_true_iff in Hc as [Hp _]. by split.
Qed.

Lemma applyNext_returns tree st st' :
  applyNext execute tree st = Return tt st' →
  (tags st' = ∅ ∧ last (history st') = Some Refreshed) ∨
  optimizations_queue st' ≠ [].
Proof.
  unfold applyNext.
  destruct (oset.pop_first (optimizations_queue st)) as [[p queue]|]; [|done].
  destruct (execute p tree (sworld st)) as [signals w|e w|w]; [|done|done].
  cbv zeta.
  destruct (negb (oset.nonempty (optimizations_queue (executed st p queue signals w)))
            || Tags.check (tags (executed st p queue signals w)) "new_code")
    eqn:Hc.
  - intros (Ht & Hh & _)%refresh_returns. left. split; [done|].
    rewrite Hh. apply last_snoc.
  - intros [= <-]. right. apply orb_false_iff in Hc as [Hq _].
    simpl in *. by destruct queue.
Qed.

(** X4.  The loop only leaves through a refresh that queued nothing: when it
    returns from a state whose queue was not empty, the queue is empty, the
    tag set is empty and the last thing done was a refresh; from a state whose
    queue is empty it returns at once, changing nothing. *)
Theorem loop_leaves_after_refresh (fuel : nat) tree st st' :
  optimizationLoop execute fuel tree st = Return tt st' →
  optimizations_queue st' = [] ∧
  (optimizations_queue st = [] → st' = st) ∧
  (optimizations_queue st ≠ [] →
   tags st' = ∅ ∧ last (history st') = Some Refreshed).
Proof.
  revert st. induction fuel as [|fuel IH]; intros st; simpl.
  - destruct (optimizations_queue st) eqn:Hq; simpl; [|done].
    intros [= <-]. by rewrite Hq.
  - destruct (optimizations_queue st) as [|p q] eqn:Hq; simpl.
    { intros [= <-]. by rewrite Hq. }
    destruct (applyNext execute tree st) as [[] st1|e st1|st1] eqn:Hstep;
      [|done|done].
    intros Hloop. destruct (IH st1 Hloop) as (Hempty & Hsame & Hmore).
    split_and!; [done|done|]. intros _.
    destruct (applyNext_returns _ _ _ Hstep) as [Href|Hne]; [|by apply Hmore].
    destruct (optimizations_queue st1) eqn:Hq1; [|by apply Hmore].
    by rewrite (Hsame eq_refl).
Qed.

(** X5.  The loop raises nothing of its own: an exception that leaves it was
    raised by a pass, or is the [NameError] of a refresh under value
    propagation.  In particular it never pops from an empty queue. *)
Theorem loop_raises_only (fuel : nat) tree st e st' :
  optimizationLoop execute fuel tree st = Raise e st' →
  (∃ p w w', execute p tree w = Raise e w') ∨
  (e = NameError "ValuePropagationVisitor" ∧ use_propagation = true).
Proof.
  revert st. induction fuel as [|fuel IH]; intros st; simpl.
  - by destruct (optimizations_queue st).
  - destruct (optimizations_queue st) as [|p q] eqn:Hq; simpl; [done|].
    unfold applyNext. rewrite Hq. simpl.
    destruct (execute p tree (sworld st)) as [signals w|e' w|w] eqn:Hex;
      [|intros [= -> <-]; left; by eexists _, _, _|done].
    match goal with
    | |- context [if ?c then _ else _] => destruct c
    end; [|apply IH].
    destruct (refresh _) as [[] st1|e' st1|st1] eqn:Hr; [apply IH| |done].
    intros [= -> <-]. right. by eapply refresh_raises.
Qed.

(** X6.  One refresh lets the whole queue drain: when no queued pass signals
    new_code as it returns and the tag is not there to begin with, the loop
    applies the queued passes one after the other, in queue order and with no
    refresh in between, and refreshes once the last of them has run. *)
Theorem loop_drains_queue (fuel : nat) tree st :
  optimizations_queue st ≠ [] →
  "new_code" ∉ tags st →
  (∀ p w, p ∈ optimizations_queue st →
          ∃ signals w', execute p tree w = Return signals w' ∧
                        "new_code" ∉ signals) →
  ∃ w t,
    optimizationLoop execute (length (optimizations_queue st) + fuel) tree st
    = match refresh (Scheduler w [] t
                       (history st ++ (Applying <$> optimizations_queue st))) with
      | Return _ st' => optimizationLoop execute fuel tree st'
      | Raise e st' => Raise e st'
      | Timeout st' => Timeout st'
      end.
Proof.
  destruct st as [w0 q t0 h0]. simpl. revert w0 t0 h0.
  induction q as [|p q IH]; intros w0 t0 h0 Hne Hnew Hsilent; [done|].
  destruct (Hsilent p w0) as (signals & w1 & Hex & Hsig); [by left|].
  assert (Ht1 : "new_code" ∉ foldl Tags.onSignal t0 signals).
  { clear -Hnew Hsig. revert t0 Hnew.
    induction signals as [|s signals IHs]; intros t0 Hnew; simpl; [done|].
    apply IHs.
    - intros Hin. apply Hsig. by right.
    - unfold Tags.onSignal, Tags.add. intros [Hs%elem_of_singleton|Hin]%elem_of_union;
        [|done]. subst s. apply Hsig. left. }
  simpl. unfold applyNext. simpl. rewrite Hex. cbv zeta.
  assert (Hcheck : Tags.check (foldl Tags.onSignal t0 signals) "new_code" = false).
  { apply not_true_is_false. by rewrite check_single. }
  simpl. rewrite Hcheck, orb_false_r.
  destruct q as [|p' q'].
  - simpl. exists w1, (foldl Tags.onSignal t0 signals). unfold executed. simpl.
    by destruct (refresh _).
  - simpl negb. cbv iota.
    destruct (IH w1 (foldl Tags.onSignal t0 signals) (h0 ++ [Applying p]))
      as (w & t & Hloop); [done|done| |].
    { intros x v Hx. apply Hsilent. by right. }
    exists w, t. unfold executed. simpl in Hloop |- *.
    rewrite <- app_assoc in Hloop. exact Hloop.
Qed.

End LoopFacts.

(** ** More on the driver *)

Section DriverShape.
Context {Tree World : Type} `{Countable Tree}.
Variable getOtherModules : World → list Tree.
Variable optimizeTree : Tree → World → outcome World Tree.
Implicit Types (d : driver Tree World) (m : Tree) (ms others : list Tree).
Implicit Types (w : World) (t : list (step Tree)).

(** What a sweep over [others] does, however it ends. *)
Lemma sweep_shape others (finished : bool) d :
  ∃ ms,
    trace (final_state (sweep optimizeTree others finished d))
    = trace d ++ (Optimizing <$> ms) ∧
    ms `sublist_of` others ∧
    NoDup ms ∧
    (∀ m, m ∈ ms → m ∉ done_modules d) ∧
    match sweep optimizeTree others finished d with
    | Return finished' d' =>
      finished' = finished && bool_decide (ms = []) ∧
      done_modules d' = list_to_set ms ∪ done_modules d ∧
      reachable optimizeTree (dworld d) (dworld d') ∧
      (ms = [] → d' = d)
    | Raise e d' =>
      ∃ m w, optimizeTree m w = Raise e (dworld d') ∧
             last ms = Some m ∧ m ∉ done_modules d'
    | Timeout d' => True
    end.
Proof.
  revert finished d. induction others as [|m others IH]; intros f d; simpl.
  - exists []. rewrite app_nil_r, andb_true_r.
    split; [done|]. split; [constructor|]. split; [apply NoDup_nil_2|].
    split; [by intros ? ?%elem_of_nil|]. split; [done|].
    split; [|split; [apply rtc_refl|done]].
    change (list_to_set []) with (∅ : gset Tree). by rewrite union_empty_l_L.
  - destruct (decide (m ∈ done_modules d)) as [Hin|Hin].
    + destruct (IH f d) as (ms & Ht & Hsub & Hnd & Hfresh & Hcase).
      exists ms. split_and!; try done. by apply sublist_cons.
    + unfold process.
      destruct (optimizeTree m (dworld d)) as [result w'|e w'|w'] eqn:Hm; simpl.
      * set (d1 := Driver w' ({[m]} ∪ done_modules d) (trace d ++ [Optimizing m])).
        destruct (IH false d1) as (ms & Ht & Hsub & Hnd & Hfresh & Hcase).
        assert (Hm_ms : m ∉ ms).
        { intros Hms. apply (Hfresh m Hms). simpl. apply elem_of_union. left.
          by apply elem_of_singleton. }
        exists (m :: ms). split_and!.
        -- rewrite Ht. simpl. by rewrite <- app_assoc.
        -- by apply sublist_skip.
        -- by apply NoDup_cons.
        -- intros x [->|Hx]%elem_of_cons; [done|].
           intros Hxd. apply (Hfresh x Hx). simpl. apply elem_of_union. by right.
        -- destruct (sweep optimizeTree others false d1) as [f' d'|e d'|d'];
             [| |done].
           ++ destruct Hcase as (-> & Hd & Hr & He). rewrite andb_false_r.
              split; [done|]. split; [|split; [|done]].
              ** rewrite Hd. simpl.
                 by rewrite (assoc_L (∪)), (comm_L (∪) _ {[m]}).
              ** eapply rtc_l; [|exact Hr]. by exists m, result.
           ++ destruct Hcase as (x & v & Hx & Hlast & Hxd).
              exists x, v. split; [done|]. split; [|done].
              destruct ms; [done|]. exact Hlast.
      * exists [m]. split; [done|]. split; [apply sublist_skip, sublist_nil_l|].
        split; [apply NoDup_singleton|].
        split; [by intros x ->%list_elem_of_singleton|].
        by exists m, (dworld d).
      * exists [m]. split; [done|]. split; [apply sublist_skip, sublist_nil_l|].
        split; [apply NoDup_singleton|].
        split; [by intros x ->%list_elem_of_singleton|done].
Qed.

(** X7.  A sweep calls [optimizeTree] only for modules of the list that
    [getOtherModules()] gave when the sweep began, in the order of that list,
    for none twice and for none that was already done: what is registered
    while the sweep runs is left for a later sweep. *)
Theorem sweep_follows_snapshot others (finished : bool) d :
  ∃ ms,
    trace (final_state (sweep optimizeTree others finished d))
    = trace d ++ (Optimizing <$> ms) ∧
    ms `sublist_of` others ∧
    NoDup ms ∧
    ∀ m, m ∈ ms → m ∉ done_modules d.
Proof.
  destruct (sweep_shape others finished d) as (ms & Ht & Hsub & Hnd & Hfresh & _).
  by exists ms.
Qed.

Lemma sweeps_shape (fuel : nat) d d' :
  sweeps getOtherModules optimizeTree fuel d = Return tt d' →
  ∃ progress,
    Forall (λ ms, ms ≠ []) progress ∧
    trace d' = trace d ++ concat (sweep_trace <$> progress) ++ [SweepBegins].
Proof.
  revert d. induction fuel as [|fuel IH]; intros d; simpl; [done|].
  set (d0 := Driver (dworld d) (done_modules d) (trace d ++ [SweepBegins])).
  destruct (sweep_shape (getOtherModules (dworld d)) true d0)
    as (ms & Ht & _ & _ & _ & Hcase).
  destruct (sweep optimizeTree _ true d0) as [f d1|e d1|d1]; [|done|done].
  destruct Hcase as (-> & _ & _ & He). simpl in Ht.
  destruct ms as [|m ms]; simpl.
  - intros [= <-]. exists []. split; [done|]. by rewrite (He eq_refl).
  - intros (progress & Hprog & Htrace)%IH. exists ((m :: ms) :: progress).
    split; [by apply Forall_cons|].
    rewrite Htrace, Ht. simpl. by rewrite <- !app_assoc.
Qed.

(** X8.  Whenever the driver returns, its trace is the call for the main
    module, then sweeps that each called [optimizeTree] for some module, then
    exactly one sweep that called it for none, which is the last thing the
    driver did. *)
Theorem returning_run_shape (fuel : nat) (main_module result : Tree) w d :
  optimizeWhole getOtherModules optimizeTree fuel main_module w = Return result d →
  ∃ progress,
    Forall (λ ms, ms ≠ []) progress ∧
    trace d = Optimizing main_module
              :: concat (sweep_trace <$> progress) ++ [SweepBegins].
Proof.
  unfold optimizeWhole, process. simpl.
  destruct (optimizeTree main_module w) as [r w1|e w1|w1]; [|done|done].
  destruct (sweeps _ _ fuel _) as [[] d1|e d1|d1] eqn:Hs; [|done|done].
  intros [= _ <-]. apply sweeps_shape in Hs as (progress & Hprog & Ht).
  by exists progress.
Qed.

Lemma sweeps_raise (fuel : nat) d e d' :
  sweeps getOtherModules optimizeTree fuel d = Raise e d' →
  ∃ m w, optimizeTree m w = Raise e (dworld d') ∧
         last (optimized (trace d')) = Some m ∧ m ∉ done_modules d'.
Proof.
  revert d. induction fuel as [|fuel IH]; intros d; simpl; [done|].
  set (d0 := Driver (dworld d) (done_modules d) (trace d ++ [SweepBegins])).
  destruct (sweep_shape (getOtherModules (dworld d)) true d0)
    as (ms & Ht & _ & _ & _ & Hcase).
  destruct (sweep optimizeTree _ true d0) as [f d1|e1 d1|d1]; [| |done].
  - destruct f; [done|apply IH].
  - intros [= -> ->]. destruct Hcase as (m & v & Hm & Hlast & Hmd).
    exists m, v. split_and!; [done| |done]. simpl in Ht.
    rewrite Ht, optimized_app, optimized_fmap.
    destruct ms as [|x ms]; [done|]. by rewrite last_app, Hlast.
Qed.

(** X9.  The driver raises nothing of its own: an exception that leaves it
    was raised by a call of [optimizeTree], for the module that is the last
    one in the trace, which is left not marked done. *)
Theorem driver_raises_only (fuel : nat) (main_module : Tree) w e d :
  optimizeWhole getOtherModules optimizeTree fuel main_module w = Raise e d →
  ∃ m w', optimizeTree m w' = Raise e (dworld d) ∧
          last (optimized (trace d)) = Some m ∧ m ∉ done_modules d.
Proof.
  unfold optimizeWhole, process. simpl.
  destruct (optimizeTree main_module w) as [r w1|e1 w1|w1] eqn:Hmain; [| |done].
  - destruct (sweeps _ _ fuel _) as [[] d1|e1 d1|d1] eqn:Hs; [done| |done].
    intros [= -> ->]. by apply sweeps_raise in Hs.
  - intros [= -> <-]. exists main_module, w. simpl.
    split_and!; [done|done|apply not_elem_of_empty].
Qed.

Lemma sweeps_registered (fuel : nat) (main_module : Tree) w d :
  reachable optimizeTree w (dworld d) →
  (∀ m, m ∈ optimized (trace d) →
        m = main_module ∨
        ∃ w', reachable optimizeTree w w' ∧ m ∈ getOtherModules w') →
  ∀ m, m ∈ optimized (trace (final_state
                               (sweeps getOtherModules optimizeTree fuel d))) →
       m = main_module ∨
       ∃ w', reachable optimizeTree w w' ∧ m ∈ getOtherModules w'.
Proof.
  revert d. induction fuel as [|fuel IH]; intros d Hw Hd; simpl; [done|].
  set (d0 := Driver (dworld d) (done_modules d) (trace d ++ [SweepBegins])).
  destruct (sweep_shape (getOtherModules (dworld d)) true d0)
    as (ms & Ht & Hsub & _ & _ & Hcase).
  assert (Hd1 : ∀ m, m ∈ optimized (trace d ++ [SweepBegins] ++ (Optimizing <$> ms)) →
            m = main_module ∨
            ∃ w', reachable optimizeTree w w' ∧ m ∈ getOtherModules w').
  { intros m. rewrite !optimized_app, optimized_fmap. simpl.
    intros [Hm|Hm]%elem_of_app; [by apply Hd|].
    right. exists (dworld d). split; [done|].
    by apply (sublist_subseteq _ _ Hsub). }
  simpl in Ht. rewrite <- app_assoc in Ht.
  destruct (sweep optimizeTree _ true d0) as [f d1|e1 d1|d1]; simpl in *;
    [|by rewrite Ht|by rewrite Ht].
  destruct Hcase as (_ & _ & Hr & _).
  destruct f; simpl; [by rewrite Ht|].
  apply IH; [by etrans|by rewrite Ht].
Qed.

(** X10.  The driver never optimizes a module that was not registered: every
    module it calls [optimizeTree] for, however the run ends, is the main
    module or was in the registry of a program state that the run reached. *)
Theorem optimizes_registered_only (fuel : nat) (main_module : Tree) w :
  ∀ m, m ∈ optimized (trace (final_state
             (optimizeWhole getOtherModules optimizeTree fuel main_module w))) →
       m = main_module ∨
       ∃ w', reachable optimizeTree w w' ∧ m ∈ getOtherModules w'.
Proof.
  unfold optimizeWhole, process. simpl.
  destruct (optimizeTree main_module w) as [r w1|e1 w1|w1] eqn:Hmain; simpl;
    [|intros m ->%list_elem_of_singleton; by left
     |intros m ->%list_elem_of_singleton; by left].
  set (d1 := Driver w1 ({[main_module]} ∪ ∅) [Optimizing main_module]).
  pose proof (sweeps_registered fuel main_module w d1) as Hs.
  destruct (sweeps _ _ fuel d1) as [[] d2|e d2|d2]; simpl in *; apply Hs;
    try (eapply rtc_once; by exists main_module, r);
    intros m ->%list_elem_of_singleton; by left.
Qed.

End DriverShape.

(** ** compare_with_cpython/__main__.py *)

Lemma starts_with_spec needle hay :
  starts_with needle hay = true ↔ ∃ rest, hay = needle ++ rest.
Proof.
  revert hay. induction needle as [|c needle IH]; intros hay; simpl.
  - split; [by exists hay|done].
  - destruct hay as [|c' hay]; [split; [done|by intros [? [=]]]|].
    rewrite andb_true_iff, IH, Ascii.eqb_eq. split.
    + intros [-> [rest ->]]. by exists rest.
    + intros [rest [= -> ->]]. split; [done|by exists rest].
Qed.

Lemma contains_spec needle hay :
  contains needle hay = true ↔ ∃ before after, hay = before ++ needle ++ after.
Proof.
  induction hay as [|c hay IH]; simpl.
  - rewrite orb_false_r, starts_with_spec. split.
    + intros [rest Hr]. by exists [], rest.
    + intros (before & after & Hh). symmetry in Hh.
      apply app_eq_nil in Hh as [-> [-> ->]%app_eq_nil]. by exists [].
  - rewrite orb_true_iff, starts_with_spec, IH. split.
    + intros [[rest ->]|(before & after & ->)]; [by exists [], rest|].
      by exists (c :: before), after.
    + intros ([|c' before] & after & Hh); simpl in Hh.
      * left. by exists after.
      * injection Hh as -> ->. right. by exists before, after.
Qed.

Lemma nullable_spec r : nullable r = true ↔ matches r [].
Proof.
  split.
  - induction r; simpl; try done.
    + intros _. constructor.
    + intros [H1 H2]%andb_true_iff.
      apply (matches_cat _ _ [] []); auto.
    + intros [H1|H2]%orb_true_iff; [apply matches_or_l|apply matches_or_r]; auto.
    + intros _. constructor.
  - intros Hm. remember [] as s eqn:Hs.
    induction Hm; simpl; try done.
    + apply app_eq_nil in Hs as [-> ->]. by rewrite IHHm1, IHHm2.
    + by rewrite IHHm.
    + rewrite IHHm by done. apply orb_true_r.
Qed.

Lemma derive_sound c r s : matches (derive c r) s → matches r (c :: s).
Proof.
  revert s. induction r as [| |c'| |r1 IH1 r2 IH2|r1 IH1 r2 IH2|r IH];
    intros s; simpl.
  - inversion 1.
  - inversion 1.
  - destruct (Ascii.eqb c c') eqn:Hc; [|inversion 1].
    apply Ascii.eqb_eq in Hc as ->. inversion 1. constructor.
  - destruct (Ascii.eqb c newline) eqn:Hc; [inversion 1|].
    apply Ascii.eqb_neq in Hc. inversion 1. by constructor.
  - destruct (nullable r1) eqn:Hn.
    + inversion 1 as [| | | | ? ? ? Hm | ? ? ? Hm | |]; subst.
      * inversion Hm; subst. apply (matches_cat _ _ (c :: _)); auto.
      * apply (matches_cat _ _ []); [by apply nullable_spec|auto].
    + inversion 1; subst. apply (matches_cat _ _ (c :: _)); auto.
  - inversion 1; subst; [apply matches_or_l|apply matches_or_r]; auto.
  - inversion 1; subst. apply (matches_many_more _ (c :: _)); auto.
Qed.

Lemma derive_complete c r s : matches r (c :: s) → matches (derive c r) s.
Proof.
  intros Hm. remember (c :: s) as cs eqn:Hcs. revert s Hcs.
  induction Hm as [|c'|c' Hc'|r1 r2 s1 s2 Hm1 IH1 Hm2 IH2|r1 r2 s' Hm IH
                  |r1 r2 s' Hm IH|r|r s1 s2 Hm1 IH1 Hm2 IH2];
    intros s Hcs; simpl.
  - done.
  - injection Hcs as -> <-. rewrite Ascii.eqb_refl. constructor.
  - injection Hcs as -> <-.
    destruct (Ascii.eqb c newline) eqn:Hc; [by apply Ascii.eqb_eq in Hc|].
    constructor.
  - destruct s1 as [|c1 s1]; simpl in Hcs.
    + subst s2. apply nullable_spec in Hm1. rewrite Hm1.
      apply matches_or_r. by apply IH2.
    + injection Hcs as -> <-.
      assert (matches (Cat (derive c r1) r2) (s1 ++ s2))
        by (apply matches_cat; auto).
      destruct (nullable r1); [by apply matches_or_l|done].
  - apply matches_or_l. by apply IH.
  - apply matches_or_r. by apply IH.
  - done.
  - destruct s1 as [|c1 s1]; simpl in Hcs.
    + by apply IH2.
    + injection Hcs as -> <-. apply matches_cat; auto.
Qed.

Lemma match_here_spec r s :
  match_here r s = true ↔ ∃ found rest, s = found ++ rest ∧ matches r found.
Proof.
  revert r. induction s as [|c s IH]; intros r; simpl.
  - rewrite orb_false_r, nullable_spec. split.
    + intros Hm. by exists [], [].
    + intros (found & rest & Hs & Hm). symmetry in Hs.
      by apply app_eq_nil in Hs as [-> _].
  - rewrite orb_true_iff, nullable_spec, IH. split.
    + intros [Hm|(found & rest & -> & Hm)]; [by exists [], (c :: s)|].
      exists (c :: found), rest. split; [done|by apply derive_sound].
    + intros ([|c' found] & rest & Hs & Hm); [by left|].
      injection Hs as <- ->. right. exists found, rest.
      split; [done|by apply derive_complete].
Qed.

Lemma search_spec r s :
  search r s = true ↔
  ∃ before found after, s = before ++ found ++ after ∧ matches r found.
Proof.
  induction s as [|c s IH]; cbn [search].
  - rewrite orb_false_r, match_here_spec. split.
    + intros (found & rest & Hs & Hm). by exists [], found, rest.
    + intros (before & found & after & Hs & Hm). symmetry in Hs.
      apply app_eq_nil in Hs as [-> Hs]. by exists found, after.
  - rewrite orb_true_iff, match_here_spec, IH. split.
    + intros [(found & rest & Hs & Hm)|(before & found & after & -> & Hm)].
      * by exists [], found, rest.
      * by exists (c :: before), found, after.
    + intros ([|c' before] & found & after & Hs & Hm); simpl in Hs.
      * left. by exists found, after.
      * injection Hs as <- ->. right. by exists before, found, after.
Qed.

Lemma matches_literal s found : matches (literal s) found ↔ found = s.
Proof.
  revert found. induction s as [|c s IH]; intros found; simpl.
  - split; [by inversion 1|intros ->; constructor].
  - split.
    + inversion 1 as [| | |? ? ? ? Hc Hs| | | |]; subst.
      inversion Hc; subst. apply IH in Hs as ->. done.
    + intros ->. apply (matches_cat _ _ [c]); [constructor|by apply IH].
Qed.

Lemma matches_one_of alternatives found :
  matches (one_of alternatives) found ↔ found ∈ alternatives.
Proof.
  induction alternatives as [|s alternatives IH]; simpl.
  - split; [inversion 1|by intros ?%elem_of_nil].
  - rewrite elem_of_cons, <- IH, <- matches_literal. split.
    + inversion 1; subst; auto.
    + intros [Hm|Hm]; [by apply matches_or_l|by apply matches_or_r].
Qed.

Lemma matches_many_dot found : matches (Many Dot) found ↔ newline ∉ found.
Proof.
  split.
  - intros Hm. remember (Many Dot) as r eqn:Hr.
    induction Hm as [| | | | | | |r' s1 s2 Hm1 _ Hm2 IH2]; try done.
    + by intros ?%elem_of_nil.
    + injection Hr as ->. inversion Hm1; subst.
      simpl. intros [Heq|Hin]%elem_of_cons; [congruence|]. by apply IH2.
  - induction found as [|c found IH]; [constructor|].
    intros Hn. apply (matches_many_more _ [c]).
    + constructor. intros Heq. apply Hn. rewrite Heq. by left.
    + apply IH. intros Hin. apply Hn. by right.
Qed.

Lemma matches_localized_error found :
  matches localized_error found ↔
  ∃ kind line place,
    found = kind ++ b ":" ++ line ++ place ∧
    kind ∈ error_kinds ∧ (newline ∉ line) ∧ place ∈ error_places.
Proof.
  unfold localized_error. split.
  - inversion 1 as [| | |? ? kind s2 Hk H2| | | |]; subst.
    inversion H2 as [| | |? ? colon s3 Hc H3| | | |]; subst.
    inversion H3 as [| | |? ? line place Hl Hp| | | |]; subst.
    inversion Hc; subst.
    exists kind, line, place. split; [done|].
    by rewrite <- matches_one_of, <- matches_many_dot, <- matches_one_of.
  - intros (kind & line & place & -> & Hk & Hl & Hp).
    apply matches_cat; [by apply matches_one_of|].
    apply (matches_cat _ _ [":"%char]); [constructor|].
    apply matches_cat; [by apply matches_many_dot|by apply matches_one_of].
Qed.

Lemma flagged_iff output :
  checkNoPermissionError output = false ↔
  (∃ marker before after,
     marker ∈ permission_errors ++ [b "clcache.__main__.CacheLockException"] ∧
     output = before ++ marker ++ after) ∨
  (∃ before kind line place after,
     output = before ++ (kind ++ b ":" ++ line ++ place) ++ after ∧
     kind ∈ error_kinds ∧ (newline ∉ line) ∧ place ∈ error_places).
Proof.
  unfold checkNoPermissionError.
  assert (Hmarkers : ∀ markers,
    existsb (λ candidate, contains candidate output) markers = true ↔
    ∃ marker before after, marker ∈ markers ∧ output = before ++ marker ++ after).
  { induction markers as [|m markers IH]; simpl.
    - split; [done|]. by intros (? & ? & ? & ?%elem_of_nil & _).
    - rewrite orb_true_iff, IH, contains_spec. split.
      + intros [(before & after & ->)|(marker & before & after & Hm & ->)].
        * exists m, before, after. split; [by left|done].
        * exists marker, before, after. split; [by right|done].
      + intros (marker & before & after & [->|Hm]%elem_of_cons & ->).
        * left. by exists before, after.
        * right. by exists marker, before, after. }
  assert (Hsearch : search localized_error output = true ↔
    ∃ before kind line place after,
      output = before ++ (kind ++ b ":" ++ line ++ place) ++ after ∧
      kind ∈ error_kinds ∧ (newline ∉ line) ∧ place ∈ error_places).
  { rewrite search_spec. split.
    - intros (before & found & after & -> & Hm).
      apply matches_localized_error in Hm as (kind & line & place & -> & Hk & Hl & Hp).
      by exists before, kind, line, place, after.
    - intros (before & kind & line & place & after & -> & Hk & Hl & Hp).
      exists before, (kind ++ b ":" ++ line ++ place), after. split; [done|].
      apply matches_localized_error. by exists kind, line, place. }
  destruct (existsb _ permission_errors) eqn:H1.
  { split; [intros _|done]. left.
    apply Hmarkers in H1 as (marker & before & after & Hm & ->).
    exists marker, before, after. split; [|done]. apply elem_of_app. by left. }
  destruct (search localized_error output) eqn:H2.
  { split; [intros _|done]. right. by apply Hsearch. }
  destruct (contains _ output) eqn:H3.
  { split; [intros _|done]. left.
    apply contains_spec in H3 as (before & after & ->).
    eexists _, before, after. split; [|done]. apply elem_of_app. right. by left. }
  split; [done|].
  intros [(marker & before & after & [Hm|Hm]%elem_of_app & ->)|Hs].
  - assert (existsb (λ candidate, contains candidate (before ++ marker ++ after))
                    permission_errors = true) as Hyes
      by (apply Hmarkers; by exists marker, before, after).
    congruence.
  - apply list_elem_of_singleton in Hm as ->.
    assert (contains (b "clcache.__main__.CacheLockException")
                     (before ++ b "clcache.__main__.CacheLockException" ++ after)
            = true) as Hyes by (apply contains_spec; by exists before, after).
    congruence.
  - apply Hsearch in Hs. congruence.
Qed.

(** X11.  [checkNoPermissionError] answers False exactly for an output that
    holds one of the byte strings "Permission denied:", "PermissionError:",
    "DBPermissionsError:" or "clcache.__main__.CacheLockException", or that
    holds, on one line, one of WindowsError, FileNotFoundError,
    FileExistsError, WinError 145 directly followed by a colon and, later on
    that line, one of @test, totest, xx, Error 145. *)
Theorem permission_error_forms output :
  checkNoPermissionError output = false ↔
  (∃ marker before after,
     marker ∈ permission_errors ++ [b "clcache.__main__.CacheLockException"] ∧
     output = before ++ marker ++ after) ∨
  (∃ before kind line place after,
     output = before ++ (kind ++ b ":" ++ line ++ place) ++ after ∧
     kind ∈ error_kinds ∧ (newline ∉ line) ∧ place ∈ error_places).
Proof. apply flagged_iff. Qed.

(** X12.  Output that is flagged stays flagged whatever is printed before and
    after it: [checkNoPermissionError] cannot be made to answer True by more
    output. *)
Theorem permission_error_persists output before after :
  checkNoPermissionError output = false →
  checkNoPermissionError (before ++ output ++ after) = false.
Proof.
  rewrite !flagged_iff.
  intros [(marker & b1 & a1 & Hm & ->)|(b1 & kind & line & place & a1 & -> & Hk)].
  - left. exists marker, (before ++ b1), (a1 ++ after).
    split; [done|]. by rewrite <- !app_assoc.
  - right. exists (before ++ b1), kind, line, place, (a1 ++ after).
    split; [|done]. by rewrite <- !app_assoc.
Qed.

(** ** Properties of the mode arguments *)

Lemma occurrences_cons (x y : string) (l : list string) :
  occurrences x (y :: l)
  = ((if decide (y = x) then 1 else 0) + occurrences x l)%nat.
Proof.
  unfold occurrences. rewrite filter_cons. by destruct (decide (y = x)).
Qed.

Lemma occurrences_pos (x : string) (l : list string) :
  (0 < occurrences x l)%nat ↔ x ∈ l.
Proof.
  induction l as [|y l IH].
  - split; [unfold occurrences; simpl; lia|by intros ?%elem_of_nil].
  - rewrite occurrences_cons, elem_of_cons. destruct (decide (y = x)) as [->|Hne].
    + split; [by left|lia].
    + rewrite <- IH. split; [by right|]. intros [->|Hx]; [done|lia].
Qed.

Lemma remove_first_spec (x : string) (l : list string) :
  match remove_first x l with
  | Some l' =>
    x ∈ l ∧
    (∀ y, occurrences y l'
          = (occurrences y l - (if decide (y = x) then 1 else 0))%nat) ∧
    (∀ f : string → bool,
        f x = false → filter (λ a, f a = true) l' = filter (λ a, f a = true) l)
  | None => x ∉ l
  end.
Proof.
  induction l as [|y l IH]; simpl; [by intros ?%elem_of_nil|].
  destruct (decide (y = x)) as [->|Hne].
  - split_and!; [by left| |].
    + intros y. rewrite occurrences_cons.
      destruct (decide (x = y)) as [->|Hxy].
      * rewrite decide_True by done. lia.
      * rewrite decide_False by done. lia.
    + intros f Hx. rewrite filter_cons_False; [done|]. by rewrite Hx.
  - destruct (remove_first x l) as [l'|]; simpl.
    + destruct IH as (Hin & Hocc & Hfilter). split_and!; [by right| |].
      * intros z. rewrite !occurrences_cons, Hocc.
        destruct (decide (y = z)) as [->|Hyz]; [|done].
        rewrite (decide_False (P := z = x)) by done. lia.
      * intros f Hx. rewrite !filter_cons, (Hfilter f Hx). done.
    + intros [->|Hin]%elem_of_cons; [done|by apply IH].
Qed.

Lemma filter_agree {A : Type} (P1 P2 : A → Prop)
    `{∀ x, Decision (P1 x)} `{∀ x, Decision (P2 x)} (l : list A) :
  (∀ x, x ∈ l → P1 x ↔ P2 x) → filter P1 l = filter P2 l.
Proof.
  induction l as [|x l IH]; intros Hl; [done|].
  rewrite !filter_cons, IH by (intros y Hy; apply Hl; by right).
  destruct (decide (P1 x)) as [H1|H1], (decide (P2 x)) as [H2|H2]; try done;
    exfalso; apply (Hl x) in H1 || apply (Hl x) in H2; (done || by left).
Qed.

Lemma hasArg_spec (arg : string) (args : list string) :
  ∃ rest,
    hasArg arg args = Finished (bool_decide (arg ∈ args), rest) ∧
    (∀ y, occurrences y rest
          = (occurrences y args - (if decide (y = arg) then 1 else 0))%nat) ∧
    (∀ f : string → bool,
        f arg = false →
        filter (λ a, f a = true) rest = filter (λ a, f a = true) args).
Proof.
  unfold hasArg. pose proof (remove_first_spec arg args) as Hrem.
  destruct (decide (arg ∈ args)) as [Hin|Hin].
  - destruct (remove_first arg args) as [rest|]; [|done].
    destruct Hrem as (_ & Hocc & Hfilter).
    exists rest. by rewrite bool_decide_eq_true_2.
  - exists args. rewrite bool_decide_eq_false_2 by done. split_and!; [done| |done].
    intros y. destruct (decide (y = arg)) as [->|]; [|lia].
    assert (occurrences arg args = 0)%nat; [|lia].
    destruct (occurrences arg args) eqn:Ho; [done|].
    exfalso. apply Hin, occurrences_pos. lia.
Qed.

Lemma hasArgs_spec (words args : list string) :
  NoDup words →
  ∃ rest,
    hasArgs words args = Finished (filter (λ w, w ∈ args) words, rest) ∧
    (∀ y, occurrences y rest
          = (occurrences y args - (if decide (y ∈ words) then 1 else 0))%nat) ∧
    (∀ f : string → bool,
        (∀ w, w ∈ words → f w = false) →
        filter (λ a, f a = true) rest = filter (λ a, f a = true) args).
Proof.
  revert args. induction words as [|word words IH]; intros args Hnd; simpl.
  - exists args. split_and!; [done| |done]. intros y. simpl. lia.
  - apply NoDup_cons in Hnd as [Hword Hnd].
    destruct (hasArg_spec word args) as (rest1 & -> & Hocc1 & Hfilter1).
    destruct (IH rest1 Hnd) as (rest & -> & Hocc & Hfilter).
    exists rest. split_and!.
    + f_equal. f_equal. rewrite filter_cons.
      assert (Hsame : filter (λ w, w ∈ rest1) words = filter (λ w, w ∈ args) words).
      { apply filter_agree. intros w Hw.
        rewrite <- !occurrences_pos, Hocc1.
        rewrite decide_False by (intros ->; done). by rewrite Nat.sub_0_r. }
      rewrite Hsame. destruct (decide (word ∈ args)).
      * by rewrite bool_decide_eq_true_2.
      * by rewrite bool_decide_eq_false_2.
    + intros y. rewrite Hocc, Hocc1.
      destruct (decide (y = word)) as [->|Hne].
      * rewrite (decide_False (P := word ∈ words)) by done.
        rewrite decide_True by (by left). lia.
      * destruct (decide (y ∈ words)) as [Hy|Hy].
        -- rewrite decide_True by (by right). lia.
        -- rewrite decide_False; [lia|]. by intros [->|?]%elem_of_cons.
    + intros f Hwords. rewrite (Hfilter f), (Hfilter1 f); [done| |].
      * apply Hwords. by left.
      * intros w Hw. apply Hwords. by right.
Qed.

Lemma take_prefixed_loop_spec (prefix : string) (front back values : list string) :
  take_prefixed_loop prefix
    (reverse (imap (λ count arg, (count, arg)) front)) values (front ++ back)
  = Finished
      (values ++ reverse (after_prefix prefix
                            <$> filter (λ a, String.prefix prefix a = true) front),
       filter (λ a, String.prefix prefix a = false) front ++ back).
Proof.
  revert back values. induction front as [|arg front IH] using rev_ind;
    intros back values.
  - simpl. by rewrite app_nil_r.
  - rewrite imap_app, reverse_app. simpl. rewrite Nat.add_0_r.
    rewrite !filter_app, !filter_cons, !filter_nil.
    destruct (String.prefix prefix arg) eqn:Hp; simpl.
    + rewrite decide_True by (rewrite !length_app; simpl; lia).
      rewrite <- app_assoc. simpl. rewrite delete_middle, IH.
      rewrite fmap_app, reverse_app. simpl.
      by rewrite app_nil_r, <- app_assoc.
    + rewrite <- !app_assoc. simpl. rewrite IH. by rewrite app_nil_r.
Qed.

Lemma take_prefixed_eq (prefix : string) (args : list string) :
  take_prefixed prefix args
  = Finished
      (reverse (after_prefix prefix
                  <$> filter (λ a, String.prefix prefix a = true) args),
       filter (λ a, String.prefix prefix a = false) args).
Proof.
  unfold take_prefixed.
  pose proof (take_prefixed_loop_spec prefix args [] []) as Hloop.
  by rewrite !app_nil_r in Hloop.
Qed.

(** X13.  The loop that takes the arguments with a prefix out of [args] never
    deletes out of range; it leaves the other arguments in their order, and
    it collects the values behind the prefix from the last such argument to
    the first, that is in the reverse of the command line's order. *)
Theorem take_prefixed_spec (prefix : string) (args : list string) :
  take_prefixed prefix args
  = Finished
      (reverse (after_prefix prefix
                  <$> filter (λ a, String.prefix prefix a = true) args),
       filter (λ a, String.prefix prefix a = false) args).
Proof. apply take_prefixed_eq. Qed.

Lemma prefix_split (p a : string) :
  String.prefix p a = true → ∃ r, a = String.append p r.
Proof.
  revert a. induction p as [|c p IH]; intros a.
  - intros _. by exists a.
  - destruct a as [|c' a]; simpl; [done|].
    destruct (Ascii.ascii_dec c c') as [->|]; [|done].
    intros [r ->]%IH. by exists r.
Qed.

Lemma prefix_exclusive (p1 p2 a : string) :
  p1 ∈ the_prefixes → p2 ∈ the_prefixes → p1 ≠ p2 →
  String.prefix p1 a = true → String.prefix p2 a = false.
Proof.
  unfold the_prefixes. intros H1 H2 Hne [r ->]%prefix_split.
  repeat (apply elem_of_cons in H1 as [->|H1]);
    try (by apply elem_of_nil in H1);
    repeat (apply elem_of_cons in H2 as [->|H2]);
    try (by apply elem_of_nil in H2); done.
Qed.

Lemma mode_words_NoDup : NoDup mode_words.
Proof. apply (bool_decide_unpack _). vm_compute. exact I. Qed.

Lemma mode_words_not_prefixed (p w : string) :
  p ∈ the_prefixes → w ∈ mode_words → String.prefix p w = false.
Proof.
  intros Hp Hw.
  assert (Hall : Forall (λ p, Forall (λ w, String.prefix p w = false) mode_words)
                        the_prefixes).
  { apply (bool_decide_unpack _). vm_compute. exact I. }
  rewrite Forall_forall in Hall. specialize (Hall p Hp).
  rewrite Forall_forall in Hall. by apply Hall.
Qed.

Lemma prefixed_false (a : string) :
  prefixed a = false ↔
  String.prefix "plugin_enable:" a = false ∧
  String.prefix "plugin_disable:" a = false ∧
  String.prefix "recurse_not:" a = false ∧
  String.prefix "recurse_to:" a = false.
Proof. unfold prefixed. rewrite !orb_false_iff. tauto. Qed.

Lemma leftover_filters (rest : list string) :
  filter (λ a, String.prefix "recurse_to:" a = false)
    (filter (λ a, String.prefix "recurse_not:" a = false)
       (filter (λ a, String.prefix "plugin_disable:" a = false)
          (filter (λ a, String.prefix "plugin_enable:" a = false) rest)))
  = filter (λ a, prefixed a = false) rest.
Proof.
  rewrite !list_filter_filter. apply filter_agree. intros a _.
  rewrite prefixed_false. tauto.
Qed.

Lemma leftover_elem (args rest : list string) (a : string) :
  (∀ y, occurrences y rest
        = (occurrences y args - (if decide (y ∈ mode_words) then 1 else 0))%nat) →
  a ∈ filter (λ a, prefixed a = false) rest ↔
  a ∈ args ∧ prefixed a = false ∧
  (a ∉ mode_words ∨ (2 ≤ occurrences a args)%nat).
Proof.
  intros Hocc.
  rewrite list_elem_of_filter, <- (occurrences_pos a rest),
    <- (occurrences_pos a args), Hocc.
  destruct (decide (a ∈ mode_words)) as [Hw|Hw].
  - split.
    + intros [Hp Ho]. split_and!; [lia|done|right; lia].
    + intros (Ha & Hp & [Hn|Ho]); [done|]. split; [done|lia].
  - split.
    + intros [Hp Ho]. split_and!; [lia|done|by left].
    + intros (Ha & Hp & _). split; [done|lia].
Qed.

(** What is left of [args] when the mode words and the prefixed arguments
    are taken out. *)
Lemma parseModes_leftover (environ : gmap string string) (args : list string) :
  ∃ leftover,
    (∀ a, a ∈ leftover ↔
          a ∈ args ∧ prefixed a = false ∧
          (a ∉ mode_words ∨ (2 ≤ occurrences a args)%nat)) ∧
    (leftover ≠ [] →
     parseModes environ args
     = SystemExit ("Error, non understood mode(s) '"
                   +:+ String.concat "," leftover +:+ "',")) ∧
    (leftover = [] →
     ∀ message, parseModes environ args ≠ SystemExit message) ∧
    parseModes environ args ≠ Uncaught IndexError ∧
    parseModes environ args ≠ Uncaught ValueError.
Proof.
  unfold parseModes.
  destruct (hasArgs_spec mode_words args mode_words_NoDup)
    as (rest & -> & Hocc & Hfilter).
  rewrite !take_prefixed_eq, leftover_filters.
  exists (filter (λ a, prefixed a = false) rest).
  split; [intros a; by apply leftover_elem|].
  destruct (decide (filter (λ a, prefixed a = false) rest ≠ [])) as [Hne|He].
  - rewrite bool_decide_eq_true_2 by done. done.
  - rewrite bool_decide_eq_false_2 by done. cbv zeta.
    split_and!; [done| | |]; intros;
      repeat match goal with
             | |- context [if ?c then _ else _] => destruct c
             end; discriminate.
Qed.

(** X14.  The tool stops with "non understood mode(s)" exactly when some
    argument is neither a prefixed argument nor a mode word, or is a mode
    word given more than once: each [hasArg] takes out one occurrence only.
    Taking the arguments apart never raises [IndexError] or [ValueError]. *)
Theorem modes_not_understood (environ : gmap string string) (args : list string) :
  ((∃ message, parseModes environ args = SystemExit message) ↔
   ∃ a, a ∈ args ∧ prefixed a = false ∧
        (a ∉ mode_words ∨ (2 ≤ occurrences a args)%nat)) ∧
  parseModes environ args ≠ Uncaught IndexError ∧
  parseModes environ args ≠ Uncaught ValueError.
Proof.
  destruct (parseModes_leftover environ args)
    as (leftover & Hin & Hexit & Hgo & Hindex & Hvalue).
  split_and!; [|done|done]. split.
  - intros [message Hm]. destruct leftover as [|a leftover].
    + by destruct (Hgo eq_refl message).
    + exists a. apply Hin. by left.
  - intros (a & Ha). apply Hin in Ha. eexists. apply Hexit.
    intros ->. by apply elem_of_nil in Ha.
Qed.

Lemma has_word (args : list string) (w : string) :
  w ∈ mode_words →
  bool_decide (w ∈ filter (λ w, w ∈ args) mode_words) = bool_decide (w ∈ args).
Proof.
  intros Hw. apply bool_decide_ext. rewrite list_elem_of_filter. tauto.
Qed.

Ltac known_word := apply (bool_decide_unpack _); vm_compute; exact I.

Lemma prefixed_values (p : string) (others : list string) (rest args : list string) :
  p ∈ the_prefixes →
  (∀ q, q ∈ others → q ∈ the_prefixes ∧ q ≠ p) →
  (∀ f : string → bool,
     (∀ w, w ∈ mode_words → f w = false) →
     filter (λ a, f a = true) rest = filter (λ a, f a = true) args) →
  filter (λ a, String.prefix p a = true)
    (foldr (λ q l, filter (λ a, String.prefix q a = false) l) rest others)
  = filter (λ a, String.prefix p a = true) args.
Proof.
  intros Hp Hothers Hfilter.
  induction others as [|q others IH]; simpl.
  - apply (Hfilter (String.prefix p)). intros w Hw.
    by apply mode_words_not_prefixed.
  - rewrite list_filter_filter, <- IH by (intros r Hr; apply Hothers; by right).
    apply filter_agree. intros a _. split; [tauto|]. intros Ha. split; [done|].
    destruct (Hothers q) as [Hq Hne]; [by left|].
    by apply (prefix_exclusive p q).
Qed.

(** X15.  When the arguments are understood, every one of them is a prefixed
    argument or a mode word given once; the locals follow the command line,
    with coverage mode forcing two step execution and switching the debug
    Python off; the prefixed values come out in the reverse of their order on
    the command line; and neither standalone with module mode nor recurse_all
    with recurse_none got through. *)
Theorem parsed_modes (environ : gmap string string) (args : list string)
    (m : modes) :
  parseModes environ args = Finished m →
  let given word := bool_decide (word ∈ args) in
  let values p :=
    reverse (after_prefix p <$> filter (λ a, String.prefix p a = true) args) in
  (∀ a, a ∈ args →
        prefixed a = true ∨ (a ∈ mode_words ∧ occurrences a args = 1%nat)) ∧
  coverage_mode m = given "coverage" ∧
  comparison_mode m = negb (given "coverage") ∧
  two_step_execution m = given "coverage" || given "two_step_execution" ∧
  python_debug m = negb (given "coverage") && given "python_debug" ∧
  no_warnings m = negb (given "warnings") ∧
  full_compat m = negb (given "improved") ∧
  trace_command m = given "trace_command" || trace_commands_set environ ∧
  standalone_mode m && module_mode m = false ∧
  recurse_all m && recurse_none m = false ∧
  plugins_enabled m = values "plugin_enable:" ∧
  plugins_disabled m = values "plugin_disable:" ∧
  recurse_not m = values "recurse_not:" ∧
  recurse_to m = values "recurse_to:".
Proof.
  intros Hparse given values.
  assert (Hunderstood : ∀ a, a ∈ args →
            prefixed a = true ∨ (a ∈ mode_words ∧ occurrences a args = 1%nat)).
  { destruct (parseModes_leftover environ args)
      as (leftover & Hin & Hexit & _).
    destruct leftover as [|x leftover]; [|by rewrite Hexit in Hparse].
    intros a Ha. destruct (prefixed a) eqn:Hp; [by left|right].
    assert (Hno : ¬ (a ∈ args ∧ prefixed a = false
                     ∧ (a ∉ mode_words ∨ (2 ≤ occurrences a args)%nat))).
    { rewrite <- Hin. by intros ?%elem_of_nil. }
    pose proof (proj2 (occurrences_pos a args) Ha) as Hpos.
    destruct (decide (a ∈ mode_words)) as [Hw|Hw]; [|exfalso; apply Hno; tauto].
    split; [done|].
    destruct (decide (2 ≤ occurrences a args)%nat); [|lia].
    exfalso. apply Hno. tauto. }
  split; [exact Hunderstood|]. clear Hunderstood.
  unfold parseModes in Hparse.
  destruct (hasArgs_spec mode_words args mode_words_NoDup)
    as (rest & Hargs & _ & Hfilter).
  rewrite Hargs, !take_prefixed_eq in Hparse.
  destruct (bool_decide _) in Hparse; [done|]. cbv zeta in Hparse.
  rewrite !has_word in Hparse by known_word.
  fold (given "coverage") (given "two_step_execution") (given "python_debug")
       (given "standalone") (given "module_mode") (given "recurse_all")
       (given "recurse_none") in Hparse.
  assert (Hv1 := prefixed_values "plugin_enable:" [] rest args).
  assert (Hv2 := prefixed_values "plugin_disable:" ["plugin_enable:"] rest args).
  assert (Hv3 := prefixed_values "recurse_not:"
                   ["plugin_disable:"; "plugin_enable:"] rest args).
  assert (Hv4 := prefixed_values "recurse_to:"
                   ["recurse_not:"; "plugin_disable:"; "plugin_enable:"] rest args).
  simpl in Hv1, Hv2, Hv3, Hv4.
  rewrite Hv1, Hv2, Hv3, Hv4 in Hparse;
    try done; try known_word;
    try (intros q Hq; split; [|intros ->];
         repeat (apply elem_of_cons in Hq as [Hq|Hq]; [by (subst; known_word) || done|]);
         by apply elem_of_nil in Hq).
  destruct (given "standalone") eqn:Hs, (given "module_mode") eqn:Hm;
    simpl in Hparse; try discriminate;
    destruct (given "recurse_all") eqn:Hra, (given "recurse_none") eqn:Hrn;
    simpl in Hparse; try discriminate;
    injection Hparse as <-; simpl;
    by destruct (given "coverage").
Qed.

Section CPythonResultsFacts.
Context {Seconds : Type}.
Variable process : nat → list string → list ascii * list ascii * Z.
Variable now : nat → Seconds.
Variable minus : Seconds → Seconds → Seconds.
Variable cache_filename : list string → string.
Implicit Types (m : machine Seconds) (cmd : list string).

#[local] Arguments checkNoPermissionError : simpl never.

Lemma retry_spec (remaining : nat) cmd (start_time : Seconds)
    (last : option (list ascii * list ascii * Z)) m :
  ∃ k start_time' last' m',
    retry process now remaining cmd start_time last m = (start_time', last', m') ∧
    (k ≤ remaining)%nat ∧
    launched m' = (launched m + k)%nat ∧
    cache m' = cache m ∧
    (∀ i, (i + 1 < k)%nat → clean (process (launched m + i)%nat cmd) = false) ∧
    (0 < remaining → 0 < k ∧
       last' = Some (process (launched m + k - 1)%nat cmd) ∧
       (clean (process (launched m + k - 1)%nat cmd) = true ∨ k = remaining))%nat.
Proof.
  revert start_time last m.
  induction remaining as [|remaining IH]; intros start_time last m.
  - exists 0%nat, start_time, last, m. simpl.
    split_and!; try done; try lia.
  - simpl. destruct (process (launched m) cmd) as [[out err] code] eqn:Hrun.
    destruct (checkNoPermissionError out && checkNoPermissionError err) eqn:Hc.
    + exists 1%nat. eexists _, _, _. split; [done|]. simpl.
      split_and!; try done; try lia. intros _. split_and!; [lia| |].
      * rewrite <- Hrun. do 2 f_equal. lia.
      * left. replace (launched m + 1 - 1)%nat with (launched m) by lia.
        by rewrite Hrun.
    + set (m1 := Machine (cache m) (S (launched m)) (S (clock_reads m))
                         (S (slept m))).
      destruct (IH (now (clock_reads m)) (Some (out, err, code)) m1)
        as (k & start' & last' & m' & Hr & Hk & Hl & Hcache & Hbad & Hlast).
      exists (S k), start', last', m'. split; [exact Hr|].
      simpl in Hl, Hbad, Hlast. split_and!; try done; try lia.
      * intros [|i] Hi.
        -- rewrite Nat.add_0_r, Hrun. exact Hc.
        -- replace (launched m + S i)%nat with (S (launched m + i)) by lia.
           apply Hbad. lia.
      * intros _. split; [lia|].
        destruct remaining as [|remaining].
        -- assert (k = 0)%nat as -> by lia.
           simpl in Hr. injection Hr as <- <- <-.
           split; [|by right].
           replace (launched m + 1 - 1)%nat with (launched m) by lia.
           by rewrite Hrun.
        -- destruct Hlast as (Hpos & -> & Hclean); [lia|].
           replace (launched m + S k - 1)%nat with (S (launched m + k - 1)) by lia.
           replace (launched m + k - 0)%nat with (S (launched m + k - 1))
             in Hclean |- * by lia.
           split; [done|]. destruct Hclean as [?| ->]; [by left|by right].
Qed.

Lemma results_of_miss cmd (cpython_cached : bool) m :
  (if cpython_cached then cache m !! cache_filename cmd else None) = None →
  ∃ k (r : results Seconds) m',
    getCPythonResults process now minus cache_filename cmd cpython_cached m
    = (Finished r, m') ∧
    (1 ≤ k ≤ 5)%nat ∧
    launched m' = (launched m + k)%nat ∧
    (stdout_cpython r, stderr_cpython r, exit_cpython r)
    = process (launched m + k - 1)%nat cmd ∧
    (∀ i, (i + 1 < k)%nat → clean (process (launched m + i)%nat cmd) = false) ∧
    (clean (process (launched m + k - 1)%nat cmd) = true ∨ k = 5%nat) ∧
    cache m' = (if cpython_cached
                then <[cache_filename cmd := r]> (cache m) else cache m).
Proof.
  intros Hmiss. unfold getCPythonResults, read_clock. rewrite Hmiss.
  set (m0 := Machine (cache m) (launched m) (S (clock_reads m)) (slept m)).
  destruct (retry_spec 5 cmd (now (clock_reads m)) None m0)
    as (k & start' & last' & m' & Hr & Hk & Hl & Hcache & Hbad & Hlast).
  rewrite Hr. destruct Hlast as (Hpos & -> & Hclean); [lia|].
  cbn [launched cache m0] in Hl, Hbad, Hclean, Hcache |- *.
  destruct (process (launched m + k - 1)%nat cmd) as [[out err] code] eqn:Hrun.
  exists k. destruct cpython_cached; eexists _, _; (split; [reflexivity|]);
    cbn [cache launched clock_reads slept
         stdout_cpython stderr_cpython exit_cpython];
    rewrite ?Hcache; split_and!; try done; try lia;
    rewrite Hrun; exact Hclean.
Qed.

(** X16.  When the results do not come from the cache, CPython is launched at
    least once and at most five times; every launch but the last wrote
    something that looks like a permission problem; the results returned are
    those of the last launch, and they are free of such problems unless all
    five launches were made: then the fifth result is returned all the same.
    With the cache on the results are stored under the command's name, with
    the cache off the cache is left alone. *)
Theorem cpython_retries cmd (cpython_cached : bool) m :
  (if cpython_cached then cache m !! cache_filename cmd else None) = None →
  ∃ k (r : results Seconds) m',
    getCPythonResults process now minus cache_filename cmd cpython_cached m
    = (Finished r, m') ∧
    (1 ≤ k ≤ 5)%nat ∧
    launched m' = (launched m + k)%nat ∧
    (stdout_cpython r, stderr_cpython r, exit_cpython r)
    = process (launched m + k - 1)%nat cmd ∧
    (∀ i, (i + 1 < k)%nat → clean (process (launched m + i)%nat cmd) = false) ∧
    (clean (process (launched m + k - 1)%nat cmd) = true ∨ k = 5%nat) ∧
    cache m' = (if cpython_cached
                then <[cache_filename cmd := r]> (cache m) else cache m).
Proof. apply results_of_miss. Qed.


End CPythonResultsFacts.

Section ReleaseFacts.

Variable exit_status : list action → string → Z.
Variable documentation_fails : list action → bool.
Variable virtualenv_fails : list action → string → bool.
Variable command_fails : list action → string → bool.
Variable findInstalledPython : string → option python.

#[local] Abbreviation tidy := (tidy exit_status).
#[local] Abbreviation almost := (almost exit_status).
#[local] Abbreviation careful := (careful exit_status).

Lemma tidy_nil : tidy [].
Proof. split; [intros [|??] ?? ?; discriminate | apply not_elem_of_nil]. Qed.

Lemma tidy_almost done : tidy done → almost done.
Proof. intros [Hall Hno]. split; [|done]. intros ??? Heq _. eauto. Qed.

Lemma all_but_last_snoc done a :
  all_succeeded exit_status done →
  all_but_last_succeeded exit_status (done ++ [a]).
Proof.
  intros Hall before command after Heq Hafter.
  destruct (exists_last Hafter) as (after' & a' & ->).
  change (before ++ System command :: after' ++ [a'])
    with (before ++ (System command :: after') ++ [a']) in Heq.
  rewrite app_assoc in Heq. apply app_inj_tail in Heq as [-> _].
  exact (Hall _ _ _ eq_refl).
Qed.

Lemma all_succeeded_snoc done a :
  all_succeeded exit_status done →
  (∀ command, a = System command → exit_status done command = 0%Z) →
  all_succeeded exit_status (done ++ [a]).
Proof.
  intros Hall Hstatus before command after Heq.
  destruct (decide (after = [])) as [->|Hafter].
  - apply app_inj_tail in Heq as [-> ->]. by apply Hstatus.
  - by apply (all_but_last_snoc done a Hall before command after).
Qed.

Lemma not_elem_of_snoc (done : list action) a :
  upload ∉ done → a ≠ upload → upload ∉ done ++ [a].
Proof.
  intros Hno Ha. rewrite elem_of_app, list_elem_of_singleton.
  intros [?|?]; congruence.
Qed.

Lemma tidy_snoc done a :
  tidy done → a ≠ upload →
  (∀ command, a = System command → exit_status done command = 0%Z) →
  tidy (done ++ [a]).
Proof.
  intros [Hall Hno] Ha Hstatus.
  split; [by apply all_succeeded_snoc | by apply not_elem_of_snoc].
Qed.

Lemma almost_snoc done a : tidy done → a ≠ upload → almost (done ++ [a]).
Proof.
  intros [Hall Hno] Ha.
  split; [by apply all_but_last_snoc | by apply not_elem_of_snoc].
Qed.

Lemma careful_ret : careful (ret tt).
Proof. intros done r done' [= <- <-] Htidy. auto using tidy_almost. Qed.

Lemma careful_raise e : careful (raise e).
Proof.
  intros done r done' [= <- <-] Htidy. split; [by apply tidy_almost|done].
Qed.

Lemma careful_assert condition : careful (assert condition).
Proof. destruct condition; [apply careful_ret | apply careful_raise]. Qed.

Lemma careful_seq s k : careful s → careful k → careful (s >>> k).
Proof.
  intros Hs Hk done r done' Hrun Htidy. unfold bind in Hrun.
  destruct (s done) as [[[]| |] d1] eqn:Hfirst.
  - destruct (Hs _ _ _ Hfirst Htidy) as [_ Hd1]. eauto.
  - injection Hrun as <- <-. destruct (Hs _ _ _ Hfirst Htidy) as [? _]. done.
  - injection Hrun as <- <-. destruct (Hs _ _ _ Hfirst Htidy) as [? _]. done.
Qed.

(** A step that only adds an action which is no command. *)
Lemma careful_external (fails : bool) a (s : release unit) :
  (∀ command, a ≠ System command) →
  (∀ done, ∃ r, s done = (r, done ++ [a])) →
  careful s.
Proof.
  intros Ha Hs done r done' Hrun Htidy.
  destruct (Hs done) as [r' Hr']. rewrite Hr' in Hrun.
  injection Hrun as <- <-.
  split; [apply almost_snoc | intros _; apply tidy_snoc]; try done;
    try apply Ha.
  intros command ->. by destruct (Ha command).
Qed.

Lemma careful_rmtree path : careful (rmtree path).
Proof. apply (careful_external true (Rmtree path)); [done|]. by eexists. Qed.

Lemma careful_documentation :
  careful (createReleaseDocumentation documentation_fails).
Proof. apply (careful_external true Documentation); [done|]. by eexists. Qed.

Lemma careful_virtualenv exe : careful (withVirtualenv virtualenv_fails exe).
Proof. apply (careful_external true (Virtualenv exe)); [done|]. by eexists. Qed.

Lemma careful_command command : careful (runCommand command_fails command).
Proof.
  apply (careful_external true (RunCommand command)); [done|]. by eexists.
Qed.

Lemma assert_system_run command done :
  assert_system exit_status command done
  = (if (exit_status done command =? 0)%Z
     then Finished tt else Uncaught AssertionError,
     done ++ [System command]).
Proof.
  unfold assert_system, bind, system, assert.
  by destruct (exit_status done command =? 0)%Z.
Qed.

Lemma careful_system command :
  System command ≠ upload → careful (assert_system exit_status command).
Proof.
  intros Hcommand done r done' Hrun Htidy.
  rewrite assert_system_run in Hrun. injection Hrun as <- <-.
  split; [by apply almost_snoc|].
  destruct (exit_status done command =? 0)%Z eqn:Hstatus; [|done].
  intros _. apply tidy_snoc; [done..|].
  intros ? [= <-]. by apply Z.eqb_eq.
Qed.

Lemma careful_check python :
  careful (_checkNuitkaInVirtualenv virtualenv_fails command_fails python).
Proof.
  destruct python as [[exe version]|]; [|apply careful_raise].
  cbn [_checkNuitkaInVirtualenv getPythonExe getPythonVersion].
  apply careful_seq; [apply careful_virtualenv|].
  apply careful_seq; [apply careful_command|].
  destruct version; [apply careful_raise|].
  apply careful_seq; apply careful_command.
Qed.

Lemma careful_for_each {A} (body : A → release unit) items :
  (∀ item, careful (body item)) → careful (for_each body items).
Proof.
  intros Hbody. induction items; cbn [for_each];
    [apply careful_ret | by apply careful_seq].
Qed.

Lemma runs_careful s k Q done :
  careful s → tidy done →
  (∀ d1, s done = (Finished tt, d1) → tidy d1 → runs k Q d1) →
  (∀ r d1, r ≠ Finished tt → almost d1 → Q r d1) →
  runs (s >>> k) Q done.
Proof.
  intros Hs Htidy Hk Hstop. unfold runs, bind.
  destruct (s done) as [[[]| |] d1] eqn:Hfirst;
    destruct (Hs _ _ _ Hfirst Htidy) as [Halmost Hd1].
  - apply Hk; auto.
  - by apply Hstop.
  - by apply Hstop.
Qed.

Lemma for_each_found {A} (body : option A → release unit) items done d1 :
  (∀ done, body None done = (Uncaught AttributeError, done)) →
  for_each body items done = (Finished tt, d1) →
  Forall is_Some items.
Proof.
  intros Hnone. revert done. induction items as [|item items IH];
    intros done Hrun; [constructor|].
  cbn [for_each] in Hrun. unfold bind in Hrun.
  destruct item as [item|].
  - destruct (body (Some item) done) as [[[]| |] d] eqn:Hfirst;
      try discriminate.
    constructor; eauto.
  - rewrite Hnone in Hrun. discriminate.
Qed.

Lemma main_run nuitka_version branch_name argv executable :
  runs (main exit_status documentation_fails virtualenv_fails command_fails
          findInstalledPython nuitka_version branch_name argv executable)
    (λ r actions,
       all_but_last_succeeded exit_status actions ∧
       (r = Finished tt → all_succeeded exit_status actions) ∧
       (upload ∈ actions → uploaded exit_status findInstalledPython nuitka_version branch_name argv actions))
    [].
Proof.
  set (Q := λ (r : ending unit) actions, _ ∧ _ ∧ _).
  assert (Hstop : ∀ r d1, r ≠ Finished tt → almost d1 → Q r d1).
  { intros r d1 Hr [Hall Hno]. by split_and!. }
  assert (Hguard : "--check" ∈ argv ∨
            (branch_name = "main" ∧ in_string "pre" nuitka_version = false ∧
             in_string "rc" nuitka_version = false) →
    runs (rmtree "check_nuitka" >>>
      rmtree "dist" >>>
      createReleaseDocumentation documentation_fails >>>
      assert_system exit_status
        ("umask 0022 && chmod -R a+rX . && " +:+ executable
         +:+ " setup.py sdist") >>>
      assert_system exit_status "gunzip dist/Nuitka*.tar.gz" >>>
      assert_system exit_status "tar --wildcards --delete --file dist/Nuitka*.tar Nuitka-*/Nuitka.egg-info/requires.txt" >>>
      assert_system exit_status "gzip -9 dist/Nuitka*.tar" >>>
      for_each (_checkNuitkaInVirtualenv virtualenv_fails command_fails)
        [findInstalledPython "2.7"; findInstalledPython "3.10"] >>>
      assert_system exit_status "twine check dist/*" >>>
      if negb (bool_decide ("--check" ∈ argv))
      then assert_system exit_status "twine upload dist/*" else ret tt) Q []).
  { intros Hok.
    apply runs_careful; [apply careful_rmtree | apply tidy_nil | | done].
    intros d1 _ Hd1.
    apply runs_careful; [apply careful_rmtree | done | | done].
    intros d2 _ Hd2. clear dependent d1.
    apply runs_careful; [apply careful_documentation | done | | done].
    intros d1 _ Hd1. clear dependent d2.
    apply runs_careful; [by apply careful_system | done | | done].
    intros d2 _ Hd2. clear dependent d1.
    apply runs_careful; [by apply careful_system | done | | done].
    intros d1 _ Hd1. clear dependent d2.
    apply runs_careful; [by apply careful_system | done | | done].
    intros d2 _ Hd2. clear dependent d1.
    apply runs_careful; [by apply careful_system | done | | done].
    intros d3 _ Hd3. clear dependent d2.
    apply runs_careful;
      [apply careful_for_each, careful_check | done | | done].
    intros d1 Hfound Hd1.
    apply for_each_found in Hfound; [|done].
    apply Forall_cons in Hfound as [Hold Hfound].
    apply Forall_cons in Hfound as [Hnew _].
    unfold runs, bind. rewrite assert_system_run.
    destruct (exit_status d1 "twine check dist/*" =? 0)%Z eqn:Hcheck;
      cbn [fst snd]; [|by apply Hstop; [|apply almost_snoc]].
    assert (Hd2 : tidy (d1 ++ [System "twine check dist/*"])).
    { apply tidy_snoc; [done..|]. intros ? [= <-]. by apply Z.eqb_eq. }
    destruct (bool_decide ("--check" ∈ argv)) eqn:Hmode; cbn [negb].
    - cbn [ret fst snd]. destruct Hd2 as [Hall Hno].
      split_and!; [by apply tidy_almost | done | done].
    - rewrite assert_system_run. cbn [fst snd].
      apply bool_decide_eq_false in Hmode.
      destruct Hok as [?|(Hbranch & Hpre & Hrc)]; [done|].
      destruct Hd2 as [Hall Hno]. split_and!.
      + by apply all_but_last_snoc.
      + destruct (exit_status _ "twine upload dist/*" =? 0)%Z eqn:Hup;
          [intros _|done].
        apply all_succeeded_snoc; [done|].
        intros ? [= <-]. by apply Z.eqb_eq.
      + intros _. split_and!; try done.
        exists (d1 ++ [System "twine check dist/*"]). split_and!; try done.
        apply elem_of_app. right. by apply list_elem_of_singleton. }
  unfold main.
  destruct (bool_decide ("--check" ∈ argv)) eqn:Hmode; cbn [negb].
  - apply bool_decide_eq_true in Hmode.
    unfold runs, bind at 1. cbn [ret]. apply Hguard. by left.
  - assert (Hnothing : Q (Uncaught AssertionError) []).
    { apply Hstop; [done|]. apply tidy_almost, tidy_nil. }
    unfold runs, bind at 1 2, assert.
    destruct (String.eqb branch_name "main") eqn:Hbranch;
      cbn [ret raise]; [|done].
    apply String.eqb_eq in Hbranch.
    destruct (in_string "pre" nuitka_version); cbn [negb andb]; [done|].
    destruct (in_string "rc" nuitka_version); cbn [negb andb]; [done|].
    apply Hguard. by right.
Qed.

(** X18.  The release tool uploads to PyPI only as its very last action, and
    only when [--check] was not given, the branch is [main], the version is
    no pre-release or release candidate, both Pythons were found and every
    command before, [twine check] among them, returned status 0. *)
Theorem upload_is_guarded nuitka_version branch_name argv executable r actions :
  main exit_status documentation_fails virtualenv_fails command_fails
    findInstalledPython nuitka_version branch_name argv executable []
    = (r, actions) →
  System "twine upload dist/*" ∈ actions →
  ("--check" ∉ argv) ∧ branch_name = "main" ∧
  in_string "pre" nuitka_version = false ∧
  in_string "rc" nuitka_version = false ∧
  is_Some (findInstalledPython "2.7") ∧
  is_Some (findInstalledPython "3.10") ∧
  ∃ before,
    actions = before ++ [System "twine upload dist/*"] ∧
    all_succeeded exit_status before ∧
    (System "twine upload dist/*" ∉ before) ∧
    System "twine check dist/*" ∈ before.
Proof.
  intros Hrun Hin.
  pose proof (main_run nuitka_version branch_name argv executable) as Hmain.
  unfold runs in Hmain. rewrite Hrun in Hmain.
  destruct Hmain as (_ & _ & Hup). exact (Hup Hin).
Qed.

(** X19.  The release tool stops at the first command that fails: in every
    run each [os.system] command but the last action returned status 0, and
    in a run that finishes all of them did. *)
Theorem release_stops_at_first_failure nuitka_version branch_name argv
    executable :
  let run :=
    main exit_status documentation_fails virtualenv_fails command_fails
      findInstalledPython nuitka_version branch_name argv executable [] in
  all_but_last_succeeded exit_status run.2 ∧
  (run.1 = Finished tt → all_succeeded exit_status run.2).
Proof.
  intros run.
  destruct (main_run nuitka_version branch_name argv executable)
    as (Hlast & Hall & _).
  by split.
Qed.

(** X20.  Without [--check], a branch other than [main] or a version with
    [pre] or [rc] in it ends the release tool with an AssertionError before
    it has done anything. *)
Theorem release_refused nuitka_version branch_name argv executable :
  "--check" ∉ argv →
  branch_name ≠ "main" ∨ in_string "pre" nuitka_version = true ∨
    in_string "rc" nuitka_version = true →
  main exit_status documentation_fails virtualenv_fails command_fails
    findInstalledPython nuitka_version branch_name argv executable []
  = (Uncaught AssertionError, []).
Proof.
  intros Hmode Hbad. unfold main.
  rewrite (bool_decide_eq_false_2 _ Hmode). cbn [negb].
  unfold bind at 1 2, assert.
  destruct (String.eqb branch_name "main") eqn:Hbranch; cbn [ret raise].
  - apply String.eqb_eq in Hbranch.
    destruct Hbad as [?|[->| ->]]; [done|done|].
    by destruct (in_string "pre" nuitka_version).
  - done.
Qed.

End ReleaseFacts.

Lemma upload_is_guarded_witness :
  ("--check" ∉ ["__main__.py"]) ∧ "main" = "main" ∧
  in_string "pre" "2.5.1" = false ∧ in_string "rc" "2.5.1" = false.
Proof.
  pose proof (upload_is_guarded (λ _ _, 0%Z) (λ _, false) (λ _ _, false)
    (λ _ _, false) (λ version, Some (Python ("python" +:+ version) version))
    "2.5.1" "main" ["__main__.py"] "python3" (Finished tt) _ eq_refl) as H.
  cbn [app] in H.
  destruct H as (? & ? & ? & ? & _).
  { apply (list_elem_of_lookup_2 _ 16). reflexivity. }
  done.
Defined.

Lemma release_refused_witness :
  main (λ _ _, 0%Z) (λ _, false) (λ _ _, false) (λ _ _, false)
    (λ version, Some (Python ("python" +:+ version) version))
    "2.5rc1" "main" ["__main__.py"] "python3" []
  = (Uncaught AssertionError, []).
Proof.
  apply release_refused.
  - apply (bool_decide_unpack _). vm_compute. exact I.
  - right. right. reflexivity.
Defined.

(** ** The properties on the concrete instances *)

Lemma refresh_queues_firing_rules_witness :
  let q := ["OptimizeRaisesVisitor"] in
  let tags : Tags.TagSet :=
    list_to_set ["new_code"; "new_constant"; "new_raise"] in
  let q' := ["OptimizeRaisesVisitor"; "OptimizeOperationVisitor";
             "OptimizeFunctionCallArgsVisitor"; "ReplaceUnpackingVisitor"] in
  @refreshOptimizationsFromTags string _ named_visitors default_options q tags
  = Return tt (q', ∅) ∧
  ∃ new, q' = q ++ new ∧ NoDup new ∧ ∀ p, p ∈ new → p ∉ q.
Proof.
  intros q tags q'.
  assert (Hrun : @refreshOptimizationsFromTags string _ named_visitors
                   default_options q tags = Return tt (q', ∅))
    by (vm_compute; reflexivity).
  exact (conj Hrun (proj1 (proj2
    (@refresh_queues_firing_rules string _ named_visitors default_options
       q tags q' ∅ Hrun)))).
Defined.

Lemma refresh_monotone_witness :
  let q := ["OptimizeRaisesVisitor"] in
  let tags1 : Tags.TagSet := list_to_set ["new_code"; "new_raise"] in
  let tags2 : Tags.TagSet :=
    list_to_set ["new_code"; "new_constant"; "new_raise"] in
  tags1 ⊆ tags2 ∧
  ∀ p, p ∈ ["OptimizeRaisesVisitor"] →
       p ∈ ["OptimizeRaisesVisitor"; "OptimizeOperationVisitor";
            "OptimizeFunctionCallArgsVisitor"; "ReplaceUnpackingVisitor"].
Proof.
  intros q tags1 tags2.
  assert (Hsub : tags1 ⊆ tags2).
  { apply (bool_decide_unpack _). vm_compute. exact I. }
  assert (Hrun1 : @refreshOptimizationsFromTags string _ named_visitors
                    default_options q tags1
                  = Return tt (["OptimizeRaisesVisitor"], ∅))
    by (vm_compute; reflexivity).
  assert (Hrun2 : @refreshOptimizationsFromTags string _ named_visitors
                    default_options q tags2
                  = Return tt (["OptimizeRaisesVisitor";
                                "OptimizeOperationVisitor";
                                "OptimizeFunctionCallArgsVisitor";
                                "ReplaceUnpackingVisitor"], ∅))
    by (vm_compute; reflexivity).
  exact (conj Hsub
    (@refresh_monotone string _ named_visitors default_options
       q tags1 tags2 _ _ ∅ ∅ Hsub Hrun1 Hrun2)).
Defined.

Lemma loop_leaves_after_refresh_witness :
  let st := Scheduler [] ["OptimizeFunctionCallArgsVisitor";
                          "ModuleRecursionVisitor"] ∅ [] in
  let st' := Scheduler [1] [] ∅
               [Applying "OptimizeFunctionCallArgsVisitor";
                Applying "ModuleRecursionVisitor"; Refreshed] in
  @optimizationLoop string nat (list nat) _ named_visitors default_options
    demo_execute 10 0 st = Return tt st' ∧
  optimizations_queue st' = [] ∧
  (optimizations_queue st ≠ [] →
   tags st' = ∅ ∧ last (history st') = Some Refreshed).
Proof.
  intros st st'.
  assert (Hrun : @optimizationLoop string nat (list nat) _ named_visitors
                   default_options demo_execute 10 0 st = Return tt st')
    by (vm_compute; reflexivity).
  pose proof (@loop_leaves_after_refresh string nat (list nat) _
                named_visitors default_options demo_execute 10 0 st st' Hrun)
    as (Hempty & _ & Hrefreshed).
  exact (conj Hrun (conj Hempty Hrefreshed)).
Defined.

Lemma loop_raises_only_witness :
  let st := Scheduler [1; 3; 2] ["OptimizeRaisesVisitor"; "OptimizeExecVisitor"]
                      ∅ [Refreshed] in
  let e := PassFailure "raise without effect" in
  @optimizationLoop string nat (list nat) _ named_visitors default_options
    demo_execute 1 3 st
  = Raise e (Scheduler [1; 3; 2] ["OptimizeExecVisitor"] ∅
                       [Refreshed; Applying "OptimizeRaisesVisitor"]) ∧
  ((∃ p w w', demo_execute p 3 w = Raise e w') ∨
   (e = NameError "ValuePropagationVisitor" ∧
    @use_propagation default_options = true)).
Proof.
  intros st e.
  assert (Hrun : @optimizationLoop string nat (list nat) _ named_visitors
                   default_options demo_execute 1 3 st
                 = Raise e (Scheduler [1; 3; 2] ["OptimizeExecVisitor"] ∅
                              [Refreshed; Applying "OptimizeRaisesVisitor"]))
    by (vm_compute; reflexivity).
  exact (conj Hrun
    (@loop_raises_only string nat (list nat) _ named_visitors default_options
       demo_execute 1 3 st e _ Hrun)).
Defined.

Lemma loop_drains_queue_witness :
  let st := Scheduler [] ["OptimizeFunctionCallArgsVisitor";
                          "OptimizeOperationVisitor"] ∅ [Refreshed] in
  ∃ w t,
    @optimizationLoop string nat (list nat) _ named_visitors default_options
      demo_execute (2 + 3) 0 st
    = match @refresh string (list nat) _ named_visitors default_options
              (Scheduler w [] t
                 [Refreshed; Applying "OptimizeFunctionCallArgsVisitor";
                  Applying "OptimizeOperationVisitor"]) with
      | Return _ st' =>
          @optimizationLoop string nat (list nat) _ named_visitors
            default_options demo_execute 3 0 st'
      | Raise e st' => Raise e st'
      | Timeout st' => Timeout st'
      end.
Proof.
  intros st.
  assert (Hqueue : optimizations_queue st ≠ []) by discriminate.
  assert (Htags : "new_code" ∉ tags st).
  { apply (bool_decide_unpack _). vm_compute. exact I. }
  assert (Hsilent : ∀ p w, p ∈ optimizations_queue st →
            ∃ signals w', demo_execute p 0 w = Return signals w' ∧
                          "new_code" ∉ signals).
  { intros p w Hp. cbn [optimizations_queue st] in Hp.
    apply elem_of_cons in Hp as [->|Hp%list_elem_of_singleton];
      [|subst p]; exists [], w; (split; [reflexivity|apply not_elem_of_nil]). }
  exact (@loop_drains_queue string nat (list nat) _ named_visitors
           default_options demo_execute 3 0 st Hqueue Htags Hsilent).
Defined.

Lemma returning_run_shape_witness :
  ∃ d,
    optimizeWhole demo_getOtherModules demo_optimizeTree 5 0 [] = Return 0 d ∧
    ∃ progress,
      Forall (λ ms, ms ≠ []) progress ∧
      trace d = Optimizing 0 :: concat (sweep_trace <$> progress) ++ [SweepBegins].
Proof.
  destruct (optimizeWhole demo_getOtherModules demo_optimizeTree 5 0 [])
    as [result d|e d|d] eqn:Hrun; [|by vm_compute in Hrun..].
  assert (result = 0) as -> by (vm_compute in Hrun; congruence).
  exists d. split; [reflexivity|].
  exact (returning_run_shape demo_getOtherModules demo_optimizeTree
           5 0 0 [] d Hrun).
Defined.

Lemma driver_raises_only_witness :
  ∃ d,
    optimizeWhole demo_getOtherModules demo_optimizeTree 5 4 [1; 3]
    = Raise (PassFailure "raise without effect") d ∧
    ∃ m w', demo_optimizeTree m w'
            = Raise (PassFailure "raise without effect") (dworld d) ∧
            last (optimized (trace d)) = Some m ∧ m ∉ done_modules d.
Proof.
  destruct (optimizeWhole demo_getOtherModules demo_optimizeTree 5 4 [1; 3])
    as [result d|e d|d] eqn:Hrun; [by vm_compute in Hrun| |by vm_compute in Hrun].
  assert (e = PassFailure "raise without effect") as ->
    by (vm_compute in Hrun; congruence).
  exists d. split; [reflexivity|].
  exact (driver_raises_only demo_getOtherModules demo_optimizeTree
           5 4 [1; 3] _ d Hrun).
Defined.

Lemma optimizes_registered_only_witness :
  2 = 0 ∨ ∃ w', reachable demo_optimizeTree [] w' ∧ 2 ∈ demo_getOtherModules w'.
Proof.
  apply (optimizes_registered_only demo_getOtherModules demo_optimizeTree 5 0 []).
  apply (list_elem_of_lookup_2 _ 2). vm_compute. reflexivity.
Defined.

Lemma permission_error_persists_witness :
  checkNoPermissionError (b "PermissionError: [Errno 13]") = false ∧
  checkNoPermissionError
    (b "Traceback: " ++ b "PermissionError: [Errno 13]" ++ b " in t.py") = false.
Proof.
  assert (Hflagged : checkNoPermissionError (b "PermissionError: [Errno 13]")
                     = false) by (vm_compute; reflexivity).
  exact (conj Hflagged
    (permission_error_persists _ (b "Traceback: ") (b " in t.py") Hflagged)).
Defined.

Lemma parsed_modes_witness :
  let args := ["silent"; "plugin_enable:x"; "coverage"; "plugin_enable:y"] in
  ∃ m, parseModes ∅ args = Finished m ∧
       coverage_mode m = true ∧ comparison_mode m = false ∧
       two_step_execution m = true ∧ plugins_enabled m = ["y"; "x"].
Proof.
  intros args.
  assert (Hrun : ∃ m, parseModes ∅ args = Finished m)
    by (vm_compute; eexists; reflexivity).
  destruct Hrun as [m Hrun].
  exists m. split; [exact Hrun|].
  destruct (parsed_modes ∅ args m Hrun)
    as (_ & Hcov & Hcmp & Htwo & _ & _ & _ & _ & _ & _ & Hplug & _).
  rewrite Hcov, Hcmp, Htwo, Hplug. vm_compute. repeat split.
Defined.

Lemma cpython_retries_witness :
  let busy n (cmd : list string) :=
    if (n <? 2)%nat then (b "PermissionError: busy", [], 1%Z)
    else (b "ok", [], 0%Z) in
  let cmd := ["python"; "Test.py"] in
  let m := Machine (Seconds := nat) ∅ 0 0 0 in
  ∃ k r m',
    getCPythonResults busy id Nat.sub (String.concat " ") cmd true m
    = (Finished r, m') ∧
    k = 3%nat ∧ launched m' = 3%nat ∧
    (stdout_cpython r, stderr_cpython r, exit_cpython r) = (b "ok", [], 0%Z) ∧
    cache m' = <[String.concat " " cmd := r]> ∅.
Proof.
  intros busy cmd m.
  assert (Hmiss : (if true then cache m !! String.concat " " cmd else None)
                  = None) by reflexivity.
  destruct (cpython_retries busy id Nat.sub (String.concat " ") cmd true m Hmiss)
    as (k & r & m' & Hrun & Hk & Hlaunched & Hresults & Hunclean & Hclean
        & Hcache).
  assert (k = 3%nat) as ->.
  { destruct k as [|[|[|[|k]]]]; [lia| | |reflexivity|].
    - destruct Hclean as [Hclean|?]; [|lia].
      vm_compute in Hclean. discriminate.
    - destruct Hclean as [Hclean|?]; [|lia].
      vm_compute in Hclean. discriminate.
    - assert (Hlast : clean (busy (launched m + 2)%nat cmd) = false)
        by (apply Hunclean; lia).
      vm_compute in Hlast. discriminate. }
  exists 3%nat, r, m'. by split_and!.
Defined.

